(** * bot-sshca: the KBFS access layer ([keybaseca/kbfs]) and the kssh
    argument scanner ([kssh.ParseArgs])

  A shallow embedding of [src/keybaseca/kbfs/kbfs.go] and of the
  [ParseArgs] function that follows it in the same source file.

  - Go strings are byte strings: [string] of the Standard Library.
  - A Go slice is [slice A]: the nil slice is [Nil], every other slice is
    [Slice l]; [append] on a nil slice allocates.
  - A Go [error] is [option error]: [None] is [nil].
  - The operating system and the [keybase] binary are an interface
    ([Host]); every call through it threads the host state and is recorded
    in a trace, so that theorems can speak about which subprocesses were
    spawned, with which arguments, in which order. *)

From Stdlib Require Import String Ascii List Arith Lia Bool.
From stdpp Require Import base list.
From Equations Require Import Equations.
Import ListNotations.

Local Open Scope string_scope.
Local Open Scope list_scope.

(** ** The parts of the Go runtime and standard library the code uses *)

Module Go.

(** The [error] interface: its [Error()] text, and what [os.IsNotExist]
    answers on it. *)
Record error : Type := mkError { Error : string; IsNotExist : bool }.

Inductive slice (A : Type) : Type :=
| Nil : slice A
| Slice (l : list A) : slice A.
Arguments Nil {A}.
Arguments Slice {A} l.

Definition elems {A} (s : slice A) : list A :=
  match s with Nil => [] | Slice l => l end.

(** [append(s, x)]: the result is never the nil slice. *)
Definition append {A} (s : slice A) (x : A) : slice A :=
  Slice (elems s ++ [x]).

Definition bytes : Type := slice ascii.

(** The conversion [string(b)] of a byte slice. *)
Definition string_of_bytes (b : bytes) : string :=
  string_of_list_ascii (elems b).

Definition bytes_of_string (s : string) : bytes :=
  Slice (list_ascii_of_string s).

Definition newline : ascii := "010"%char.

(** [strings.Contains(s, substr)]. *)
Fixpoint Contains (s substr : string) : bool :=
  if String.prefix substr s then true
  else match s with
       | EmptyString => false
       | String _ s' => Contains s' substr
       end.

(** [strings.Split(s, sep)] for a separator [sep] of one byte: the pieces
    between the occurrences of [sep]; one more piece than occurrences. *)
Fixpoint Split (s : string) (sep : ascii) : list string :=
  match s with
  | EmptyString => [EmptyString]
  | String c s' =>
      if Ascii.eqb c sep then EmptyString :: Split s' sep
      else match Split s' sep with
           | piece :: rest => String c piece :: rest
           | [] => [String c EmptyString]
           end
  end.

(** [strings.Join(pieces, sep)], used to state what [Split] computes. *)
Fixpoint Join (pieces : list string) (sep : ascii) : string :=
  match pieces with
  | [] => EmptyString
  | [p] => p
  | p :: rest => String.append p (String sep (Join rest sep))
  end.

(** Operands of a formatting call. *)
Inductive operand : Type :=
| OpString (s : string)
| OpError (e : option error).

(** How the verbs [%s] and [%v] print an operand. *)
Definition render (o : operand) : string :=
  match o with
  | OpString s => s
  | OpError (Some e) => Error e
  | OpError None => "<nil>"
  end.

(** [fmt.Sprintf] restricted to the verbs [%s] and [%v], which are the only
    ones in this code; every call has as many operands as verbs. *)
Fixpoint Sprintf (format : string) (a : list operand) : string :=
  match format with
  | EmptyString => EmptyString
  | String "%" (String v rest) =>
      if Ascii.eqb v "s" || Ascii.eqb v "v" then
        match a with
        | o :: a' => String.append (render o) (Sprintf rest a')
        | [] => String.append "%!" (String v (String.append "(MISSING)" (Sprintf rest [])))
        end
      else String "%" (String v (Sprintf rest a))
  | String c rest => String c (Sprintf rest a)
  end.

(** [fmt.Errorf]: a fresh error value, which [os.IsNotExist] does not
    recognise. *)
Definition Errorf (format : string) (a : list operand) : error :=
  {| Error := Sprintf format a; IsNotExist := false |}.

(** [exec.Cmd]: [Args] holds the command line, the command name first. *)
Record Cmd : Type := mkCmd {
  Path : string;
  Args : list string;
  Stdin : option string
}.

(** [exec.Command(name, arg...)]. *)
Definition Command (name : string) (arg : list string) : Cmd :=
  {| Path := name; Args := name :: arg; Stdin := None |}.

(** [cmd.Stdin = strings.NewReader(contents)]. *)
Definition with_Stdin (cmd : Cmd) (contents : string) : Cmd :=
  {| Path := Path cmd; Args := Args cmd; Stdin := Some contents |}.

(** The host: what [os.Stat], [ioutil.ReadFile] and [cmd.CombinedOutput]
    answer, as functions of the state of the machine. *)
Class Host (W : Type) : Type := {
  os_Stat : string -> W -> option error * W;
  ioutil_ReadFile : string -> W -> (bytes * option error) * W;
  Cmd_CombinedOutput : Cmd -> W -> (bytes * option error) * W
}.

(** What the program did to the host, in order. *)
Inductive Event : Type :=
| EvStat (name : string) (err : option error)
| EvReadFile (name : string) (r : bytes * option error)
| EvSpawn (cmd : Cmd) (r : bytes * option error).

Record State (W : Type) : Type := mkState { world : W; trace : list Event }.
Arguments mkState {W} world trace.
Arguments world {W} s.
Arguments trace {W} s.

(** The state monad the operations run in. *)
Definition M (W A : Type) : Type := State W -> A * State W.

Definition ret {W A} (a : A) : M W A := fun s => (a, s).

Definition bind {W A B} (m : M W A) (k : A -> M W B) : M W B :=
  fun s => let (a, s') := m s in k a s'.

Definition Stat {W} `{Host W} (name : string) : M W (option error) :=
  fun s =>
    let (err, w) := os_Stat name (world s) in
    (err, mkState w (trace s ++ [EvStat name err])).

Definition ReadFile {W} `{Host W} (name : string) : M W (bytes * option error) :=
  fun s =>
    let (r, w) := ioutil_ReadFile name (world s) in
    (r, mkState w (trace s ++ [EvReadFile name r])).

Definition CombinedOutput {W} `{Host W} (cmd : Cmd) : M W (bytes * option error) :=
  fun s =>
    let (r, w) := Cmd_CombinedOutput cmd (world s) in
    (r, mkState w (trace s ++ [EvSpawn cmd r])).

(** The subprocesses of a trace. *)
Definition spawned (t : list Event) : list Cmd :=
  flat_map (fun ev => match ev with EvSpawn cmd _ => [cmd] | _ => [] end) t.

End Go.

Import Go.

Notation "'do' x <- m ; k" := (Go.bind m (fun x => k))
(at level 10, x name, m at level 100, k at level 200, only parsing).
Notation "'do' ( x , y ) <- m ; k" := (Go.bind m (fun xy => let (x, y) := xy in k))
(at level 10, x name, y name, m at level 100, k at level 200, only parsing).

Definition is_nil_err (e : option error) : bool :=
match e with None => true | Some _ => false end.

(** ** Package [kbfs] *)

Module kbfs.

Record Operation : Type := mkOperation { KeybaseBinaryPath : string }.

(** The result of the first half of [Write]: either the function has
    returned already, or the command to run is chosen. *)
Inductive chosen : Type :=
| Returned (err : option error)
| Run (cmd : Cmd).

Section Operations.

Context {W : Type} `{Host W}.

(** [strings.TrimSpace], which the code only uses inside error texts. *)
Variable TrimSpace : string -> string.

(** [supportsFuse]: the four probes are all made, then compared. *)
Definition supportsFuse : M W bool :=
  do err1 <- Stat "/keybase";
  do err2 <- Stat "/keybase/team";
  do err3 <- Stat "/keybase/private";
  do err4 <- Stat "/keybase/public";
  ret (is_nil_err err1 && is_nil_err err2 && is_nil_err err3 && is_nil_err err4).

(** [(ko *Operation) FileExists]. *)
Definition FileExists (ko : Operation) (filename : string)
  : M W (bool * option error) :=
  do fuse <- supportsFuse;
  if fuse then
    do err <- Stat filename;
    match err with
    | None => ret (true, None)
    | Some e =>
        if IsNotExist e then ret (false, None)
        else ret (false, Some e)
    end
  else
    let cmd := Command (KeybaseBinaryPath ko) ["fs"; "stat"; filename] in
    do (bytes, err) <- CombinedOutput cmd;
    match err with
    | None => ret (true, None)
    | Some _ =>
        if Contains (string_of_bytes bytes) "ERROR file does not exist"
        then ret (false, None)
        else ret (false,
                  Some (Errorf "failed to stat %s: %s (%v)"
                          [OpString filename;
                           OpString (TrimSpace (string_of_bytes bytes));
                           OpError err]))
    end.

(** [(ko *Operation) Read]. *)
Definition Read (ko : Operation) (filename : string)
  : M W (bytes * option error) :=
  do fuse <- supportsFuse;
  if fuse then ReadFile filename
  else
    let cmd := Command (KeybaseBinaryPath ko) ["fs"; "read"; filename] in
    do (bytes, err) <- CombinedOutput cmd;
    match err with
    | Some _ =>
        ret (Nil,
             Some (Errorf "failed to read %s: %s (%v)"
                     [OpString filename;
                      OpString (TrimSpace (string_of_bytes bytes));
                      OpError err]))
    | None => ret (bytes, None)
    end.

(** [(ko *Operation) Delete]. *)
Definition Delete (ko : Operation) (filename : string) : M W (option error) :=
  let cmd := Command (KeybaseBinaryPath ko) ["fs"; "rm"; filename] in
  do (bytes, err) <- CombinedOutput cmd;
  match err with
  | Some _ =>
      ret (Some (Errorf "failed to delete the file at %s: %s (%v)"
                   [OpString filename;
                    OpString (TrimSpace (string_of_bytes bytes));
                    OpError err]))
  | None => ret None
  end.

(** The end of [Write], from [cmd.Stdin = ...] on, which both branches of
    [if appendToFile] reach unless the function has returned. *)
Definition Write_run (filename contents : string) (c : chosen)
  : M W (option error) :=
  match c with
  | Returned err => ret err
  | Run cmd =>
      let cmd := with_Stdin cmd contents in
      do (bytes, err) <- CombinedOutput cmd;
      match err with
      | Some _ =>
          ret (Some (Errorf "failed to write to file at %s: %s (%v)"
                       [OpString filename;
                        OpString (TrimSpace (string_of_bytes bytes));
                        OpError err]))
      | None => ret None
      end
  end.

(** [(ko *Operation) Write]. The function calls itself once, with
    [appendToFile] false, from the branch where it is true. *)
Equations Write (ko : Operation) (filename contents : string)
  (appendToFile : bool) : M W (option error)
  by wf (Nat.b2n appendToFile) lt :=
Write ko filename contents true :=
  do c <-
    (do (exist, err) <- FileExists ko filename;
     if negb exist || negb (is_nil_err err) then
       do err <- Write ko filename "" false;
       match err with
       | Some _ => ret (Returned err)
       | None =>
           ret (Run (Command (KeybaseBinaryPath ko)
                       ["fs"; "write"; "--append"; filename]))
       end
     else
       ret (Run (Command (KeybaseBinaryPath ko)
                   ["fs"; "write"; "--append"; filename])));
  Write_run filename contents c;
Write ko filename contents false :=
  do c <- ret (Run (Command (KeybaseBinaryPath ko) ["fs"; "write"; filename]));
  Write_run filename contents c.

(** The loop of [List] over the pieces of the output. *)
Definition List_loop (pieces : list string) : slice string :=
  fold_left
    (fun ret s => if negb (String.eqb s "") then append ret s else ret)
    pieces Nil.

(** [(ko *Operation) List]. *)
Definition List (ko : Operation) (path : string)
  : M W (slice string * option error) :=
  let cmd := Command (KeybaseBinaryPath ko) ["fs"; "ls"; "-1"; "--nocolor"; path] in
  do (output, err) <- CombinedOutput cmd;
  match err with
  | Some _ =>
      ret (Nil,
           Some (Errorf "failed to list files in /keybase/team/: %s (%v)"
                   [OpString (TrimSpace (string_of_bytes output));
                    OpError err]))
  | None => ret (List_loop (Split (string_of_bytes output) newline), None)
  end.

End Operations.

End kbfs.

(** ** Package [kssh]: the argument scanner *)

Module kssh.

Record CLIArgument : Type := mkCLIArgument {
  Name : string;
  HasArgument : bool
}.

Record ParsedCLIArgument : Type := mkParsed {
  Argument : CLIArgument;
  Value : string
}.

(** What [ParseArgs] hands back: the three results of a normal return, or
    nothing when the run stops on an index out of range. *)
Definition results : Type :=
  option (slice string * slice ParsedCLIArgument * option error).

(** How one run of the loop over [cliArguments] ends. *)
Inductive inner_exit : Type :=
| ReturnErr (e : error)
| ContinueOuter (parsed : ParsedCLIArgument) (i : nat)
| NoMatch
| IndexOutOfRange.

(** The loop [for _, cliArg := range cliArguments] at position [i] of
    [args], where [arg] is [args[i]]. [ContinueOuter parsed i'] hands back
    the entry to add to [found] and the value of [i] at [continue OUTER]. *)
Fixpoint inner (args : list string) (i : nat) (arg : string)
  (cliArguments : list CLIArgument) : inner_exit :=
  match cliArguments with
  | [] => NoMatch
  | cliArg :: rest =>
      if String.eqb (Name cliArg) arg then
        let parsed := {| Argument := cliArg; Value := "" |} in
        if HasArgument cliArg then
          if Nat.eqb (i + 1) (length args) then
            ReturnErr (Errorf "argument %s requires a value"
                         [OpString (Name cliArg)])
          else
            match args !! (i + 1) with
            | None => IndexOutOfRange
            | Some nextArg =>
                ContinueOuter {| Argument := Argument parsed; Value := nextArg |}
                              (i + 1)
            end
        else ContinueOuter parsed i
      else inner args i arg rest
  end.

(** A value together with the fact that it is the value of [x]. *)
Definition inspect {A : Type} (x : A) : {y : A | x = y} := exist _ x eq_refl.

(** The loop [OUTER], entered with the loop variable at [i]; each round
    ends with the [i++] of the [for] statement. *)
Equations? outer (args : list string) (cliArguments : list CLIArgument)
  (i : nat) (remainingArguments : slice string)
  (found : slice ParsedCLIArgument) : results
  by wf (length args - i) lt :=
outer args cliArguments i remainingArguments found
  with lt_dec i (length args) := {
  | right _ => Some (remainingArguments, found, None)
  | left Hlt with inspect (args !! i) := {
    | exist _ None _ => None
    | exist _ (Some arg) _ with inspect (inner args i arg cliArguments) := {
      | exist _ (ReturnErr e) _ => Some (Nil, Nil, Some e)
      | exist _ (ContinueOuter parsed i') Hin =>
          outer args cliArguments (i' + 1) remainingArguments
                (append found parsed)
      | exist _ NoMatch _ =>
          outer args cliArguments (i + 1) (append remainingArguments arg) found
      | exist _ IndexOutOfRange _ => None } } }.
Proof.
  - assert (i <= i') as Hle; [|lia].
    clear outer. revert Hin.
    induction cliArguments as [|cliArg rest IH]; simpl; [discriminate|].
    destruct (String.eqb _ _); [|exact IH].
    destruct (HasArgument cliArg).
    + destruct (Nat.eqb (i + 1) (length args)); [discriminate|].
      destruct (args !! (i + 1)); [|discriminate].
      intros [= _ <-]. lia.
    + intros [= _ <-]. lia.
  - lia.
Qed.

(** [ParseArgs]. *)
Definition ParseArgs (args : list string) (cliArguments : list CLIArgument)
  : results :=
  outer args cliArguments 0 (Slice []) (Slice []).

End kssh.

(** ** Vocabulary of the specification *)

Module Spec.

Import kbfs kssh.

(** The five operations of the facade. *)
Inductive op : Type :=
| Exists
| OpRead
| OpWrite (contents : string) (appendFlag : bool)
| OpDelete
| OpList.

(** An operation run for its error result. *)
Definition run {W} `{Host W} (TrimSpace : string -> string)
  (ko : Operation) (o : op) (path : string) : M W (option error) :=
  match o with
  | Exists => do r <- FileExists TrimSpace ko path; ret (snd r)
  | OpRead => do r <- Read TrimSpace ko path; ret (snd r)
  | OpWrite contents appendFlag => Write TrimSpace ko path contents appendFlag
  | OpDelete => Delete TrimSpace ko path
  | OpList => do r <- List TrimSpace ko path; ret (snd r)
  end.

(** The invocation surface in the words of the specification: the argument
    lists handed to the control binary. *)
Definition invocation_surface (path : string) : list (list string) :=
  [ ["stat"; path];
    ["read"; path];
    ["rm"; path];
    ["write"; path];
    ["write"; "--append"; path];
    ["ls"; "-1"; "--nocolor"; path] ].

(** The commands an operation may spawn, as the code builds them. *)
Definition stat_cmd (ko : Operation) (path : string) : Cmd :=
  {| Path := KeybaseBinaryPath ko;
     Args := [KeybaseBinaryPath ko; "fs"; "stat"; path];
     Stdin := None |}.

Definition read_cmd (ko : Operation) (path : string) : Cmd :=
  {| Path := KeybaseBinaryPath ko;
     Args := [KeybaseBinaryPath ko; "fs"; "read"; path];
     Stdin := None |}.

Definition rm_cmd (ko : Operation) (path : string) : Cmd :=
  {| Path := KeybaseBinaryPath ko;
     Args := [KeybaseBinaryPath ko; "fs"; "rm"; path];
     Stdin := None |}.

Definition write_cmd (ko : Operation) (path contents : string) : Cmd :=
  {| Path := KeybaseBinaryPath ko;
     Args := [KeybaseBinaryPath ko; "fs"; "write"; path];
     Stdin := Some contents |}.

Definition append_cmd (ko : Operation) (path contents : string) : Cmd :=
  {| Path := KeybaseBinaryPath ko;
     Args := [KeybaseBinaryPath ko; "fs"; "write"; "--append"; path];
     Stdin := Some contents |}.

Definition ls_cmd (ko : Operation) (path : string) : Cmd :=
  {| Path := KeybaseBinaryPath ko;
     Args := [KeybaseBinaryPath ko; "fs"; "ls"; "-1"; "--nocolor"; path];
     Stdin := None |}.

Definition commands_of (ko : Operation) (o : op) (path : string) : list Cmd :=
  match o with
  | Exists => [stat_cmd ko path]
  | OpRead => [read_cmd ko path]
  | OpWrite contents false => [write_cmd ko path contents]
  | OpWrite contents true =>
      [stat_cmd ko path; write_cmd ko path ""; append_cmd ko path contents]
  | OpDelete => [rm_cmd ko path]
  | OpList => [ls_cmd ko path]
  end.

(** The error a failed subprocess is reported as: what failed, the path,
    the trimmed combined output and the error of the invocation. *)
Definition report (what : string) (TrimSpace : string -> string)
  (path : string) (out : bytes) (e : error) : error :=
  {| Error :=
       what ++ path ++ ": " ++ TrimSpace (string_of_bytes out)
       ++ " (" ++ Error e ++ ")";
     IsNotExist := false |}.

(** What a write step hands back: [nil] when the subprocess succeeded. *)
Definition write_report (TrimSpace : string -> string) (path : string)
  (r : bytes * option error) : option error :=
  match snd r with
  | None => None
  | Some e => Some (report "failed to write to file at " TrimSpace path (fst r) e)
  end.

(** The text of an error names each of [parts]. *)
Definition mentions (e : error) (parts : list string) : Prop :=
  Forall (fun p => Contains (Error e) p = true) parts.

(** What the error of a failed subprocess names, by operation. *)
Definition reported_parts (o : op) (path trimmed : string) (e : error)
  : list string :=
  match o with
  | OpList => [trimmed; Error e]
  | _ => [path; trimmed; Error e]
  end.

(** A line of a listing that is kept. *)
Definition nonempty (p : string) : bool := negb (String.eqb p "").

(** A string holds a given byte. *)
Fixpoint has_byte (c : ascii) (s : string) : bool :=
  match s with
  | EmptyString => false
  | String x s' => Ascii.eqb x c || has_byte c s'
  end.

(** Only a failed [stat] is read for the text that means not found. *)
Definition not_found_answer (o : op) (out : bytes) : bool :=
  match o with
  | Exists => Contains (string_of_bytes out) "ERROR file does not exist"
  | _ => false
  end.

(** The scanner in the words of the specification: one pass over the
    tokens, exact comparison with the names, the first descriptor that
    matches wins, and a flag that needs a value takes the next token. *)
Inductive scan_result : Type :=
| ScanOk (remaining : list string) (matches : list ParsedCLIArgument)
| MissingValue (flag : CLIArgument).

Definition first_match (descs : list CLIArgument) (token : string)
  : option CLIArgument :=
  List.find (fun d => String.eqb (Name d) token) descs.

Definition keep (token : string) (r : scan_result) : scan_result :=
  match r with
  | ScanOk remaining matches => ScanOk (token :: remaining) matches
  | MissingValue flag => MissingValue flag
  end.

Definition matched (p : ParsedCLIArgument) (r : scan_result) : scan_result :=
  match r with
  | ScanOk remaining matches => ScanOk remaining (p :: matches)
  | MissingValue flag => MissingValue flag
  end.

Fixpoint scan (descs : list CLIArgument) (tokens : list string) : scan_result :=
  match tokens with
  | [] => ScanOk [] []
  | t :: rest =>
      match first_match descs t with
      | None => keep t (scan descs rest)
      | Some d =>
          if HasArgument d then
            match rest with
            | [] => MissingValue d
            | v :: rest' => matched (mkParsed d v) (scan descs rest')
            end
          else matched (mkParsed d "") (scan descs rest)
      end
  end.

Definition missing_value (flag : CLIArgument) : error :=
  {| Error := "argument " ++ Name flag ++ " requires a value";
     IsNotExist := false |}.

Definition to_results (r : scan_result)
  : slice string * slice ParsedCLIArgument * option error :=
  match r with
  | ScanOk remaining matches => (Slice remaining, Slice matches, None)
  | MissingValue flag => (Nil, Nil, Some (missing_value flag))
  end.

(** The tokens a match stands for. *)
Definition tokens_of (p : ParsedCLIArgument) : list string :=
  if HasArgument (Argument p) then [Name (Argument p); Value p]
  else [Name (Argument p)].

(** [Weave descs remaining matches tokens]: the token sequence is the
    remaining tokens and the matches woven together, each in its own order;
    every token belongs to exactly one of them; a remaining token equals no
    name; a match carries the first descriptor named like its token, and
    its value, if it takes one, is the token that follows. *)
Inductive Weave (descs : list CLIArgument)
  : list string -> list ParsedCLIArgument -> list string -> Prop :=
| weave_nil : Weave descs [] [] []
| weave_keep t remaining matches tokens :
    first_match descs t = None ->
    Weave descs remaining matches tokens ->
    Weave descs (t :: remaining) matches (t :: tokens)
| weave_match p remaining matches tokens :
    first_match descs (Name (Argument p)) = Some (Argument p) ->
    (HasArgument (Argument p) = false -> Value p = "") ->
    Weave descs remaining matches tokens ->
    Weave descs remaining (p :: matches) (tokens_of p ++ tokens).

(** A slice after a run of [append]s. *)
Definition appends {A} (s : slice A) (l : list A) : slice A :=
  fold_left append l s.

(** The results of the loop entered with [remaining] and [found], when the
    rest of the tokens scans as [r]. *)
Definition resume (remaining : slice string) (found : slice ParsedCLIArgument)
  (r : scan_result) : slice string * slice ParsedCLIArgument * option error :=
  match r with
  | ScanOk rest matches => (appends remaining rest, appends found matches, None)
  | MissingValue flag => (Nil, Nil, Some (missing_value flag))
  end.

(** Scanning a sequence in two parts, when the first part scans without
    error. *)
Definition prepend (remaining : list string) (matches : list ParsedCLIArgument)
  (r : scan_result) : scan_result :=
  match r with
  | ScanOk remaining' matches' =>
      ScanOk (remaining ++ remaining') (matches ++ matches')
  | MissingValue flag => MissingValue flag
  end.

(** What a failed subprocess at the end of operation [o] leads to. *)
Definition reported (TrimSpace : string -> string) (o : op) (path : string) (ev : Event)
  (res : option error) : Prop :=
  forall cmd out e,
    ev = EvSpawn cmd (out, Some e) ->
    not_found_answer o out = false ->
    exists err,
      res = Some err
      /\ mentions err (reported_parts o path (TrimSpace (string_of_bytes out)) e).

End Spec.

(** ** A host to run the operations on

  The files below [present] can be stat-ed; the subprocesses answer with
  [replies], one after the other. *)

Module Scripted.

Record host : Type := mkHost {
  present : list string;
  replies : list (bytes * option error)
}.

Definition ENOENT (syscall name : string) : error :=
  {| Error := syscall ++ " " ++ name ++ ": no such file or directory";
     IsNotExist := true |}.

Definition exit_status_1 : error :=
  {| Error := "exit status 1"; IsNotExist := false |}.

#[export] Instance Scripted_Host : Host host := {
  os_Stat name w :=
    (if existsb (String.eqb name) (present w) then None
     else Some (ENOENT "stat" name), w);
  ioutil_ReadFile name w :=
    ((Nil, Some (ENOENT "open" name)), w);
  Cmd_CombinedOutput cmd w :=
    match replies w with
    | r :: rs => (r, mkHost (present w) rs)
    | [] => ((Nil, Some {| Error := "exec: no reply"; IsNotExist := false |}), w)
    end
}.

Definition start (present : list string) (replies : list (bytes * option error))
  : State host :=
  mkState (mkHost present replies) [].

Definition mount : list string :=
  ["/keybase"; "/keybase/team"; "/keybase/private"; "/keybase/public"].

Definition is_space (c : ascii) : bool :=
  existsb (Ascii.eqb c) ["009"; "010"; "011"; "012"; "013"; " "]%char.

Fixpoint trim_left (s : string) : string :=
  match s with
  | String c s' => if is_space c then trim_left s' else s
  | EmptyString => EmptyString
  end.

Fixpoint trim_right (s : string) : string :=
  match s with
  | EmptyString => EmptyString
  | String c s' =>
      match trim_right s' with
      | EmptyString => if is_space c then EmptyString else String c EmptyString
      | t => String c t
      end
  end.

(** [strings.TrimSpace] on strings of ASCII bytes. The theorems hold for
    every function in its place; the examples run with this one. *)
Definition TrimSpace (s : string) : string := trim_right (trim_left s).

Definition keybase : kbfs.Operation := {| kbfs.KeybaseBinaryPath := "keybase" |}.

Definition config : string := "/keybase/team/acme/kssh-client.config".

Definition say (text : string) : bytes * option error :=
  (bytes_of_string text, None).

Definition fail_with (text : string) : bytes * option error :=
  (bytes_of_string text, Some exit_status_1).

Definition flags : list kssh.CLIArgument :=
  [ kssh.mkCLIArgument "--team" true;
    kssh.mkCLIArgument "--help" false;
    kssh.mkCLIArgument "--help" true ].

End Scripted.

(** ** Closed forms, to state what the scanner and the listing compute *)

Module Forms.

Import kssh Spec.

(** The token is the name of a descriptor. *)
Definition is_name (descs : list CLIArgument) (token : string) : bool :=
  existsb (fun d => String.eqb (Name d) token) descs.

(** The match a token gives when no flag takes a value. *)
Definition switch_of (descs : list CLIArgument) (token : string)
  : list ParsedCLIArgument :=
  match first_match descs token with
  | Some d => [mkParsed d ""]
  | None => []
  end.

(** [Interleave l1 l2 l]: every element of [l] goes to exactly one of [l1]
    and [l2], and each of the two keeps the order of [l]. *)
Inductive Interleave {A : Type} : list A -> list A -> list A -> Prop :=
| interleave_nil : Interleave [] [] []
| interleave_left x l1 l2 l :
    Interleave l1 l2 l -> Interleave (x :: l1) l2 (x :: l)
| interleave_right x l1 l2 l :
    Interleave l1 l2 l -> Interleave l1 (x :: l2) (x :: l).

(** What [ls -1] prints for a list of names: each name, then a newline. *)
Fixpoint listing (names : list string) : string :=
  match names with
  | [] => EmptyString
  | n :: rest => n ++ String newline (listing rest)
  end.

End Forms.

(** ** A host that keeps files

    A machine without the mount, where the control binary keeps the files in
    a store: [fs stat] and [fs read] fail on a file that is not there,
    [fs write] creates or replaces a file, [fs write --append] only works on
    a file that is there, [fs rm] removes one. *)

Module MemFS.

Definition store : Type := string -> option string.

Definition empty : store := fun _ => None.

Definition put (p c : string) (w : store) : store :=
  fun q => if String.eqb q p then Some c else w q.

Definition remove (p : string) (w : store) : store :=
  fun q => if String.eqb q p then None else w q.

Definition ok (out : string) (w : store) : (bytes * option error) * store :=
  ((bytes_of_string out, None), w).

Definition failed (out : string) (w : store) : (bytes * option error) * store :=
  ((bytes_of_string out, Some Scripted.exit_status_1), w).

Definition exec (cmd : Cmd) (w : store) : (bytes * option error) * store :=
  match Args cmd with
  | [_; fs; sub; p] =>
      if negb (String.eqb fs "fs") then failed "ERROR unknown command" w
      else if String.eqb sub "stat" then
        match w p with
        | Some _ => ok p w
        | None => failed "ERROR file does not exist" w
        end
      else if String.eqb sub "read" then
        match w p with
        | Some c => ok c w
        | None => failed "ERROR file does not exist" w
        end
      else if String.eqb sub "rm" then
        match w p with
        | Some _ => ok "" (remove p w)
        | None => failed "ERROR file does not exist" w
        end
      else if String.eqb sub "write" then
        match Stdin cmd with
        | Some c => ok "" (put p c w)
        | None => ok "" (put p "" w)
        end
      else failed "ERROR unknown command" w
  | [_; fs; sub; flag; p] =>
      if String.eqb fs "fs" && String.eqb sub "write" && String.eqb flag "--append"
      then
        match w p, Stdin cmd with
        | Some old, Some c => ok "" (put p (old ++ c) w)
        | Some old, None => ok "" w
        | None, _ => failed "ERROR file does not exist" w
        end
      else failed "ERROR unknown command" w
  | _ => failed "ERROR unknown command" w
  end.

#[export] Instance MemFS_Host : Host store := {
  os_Stat name w := (Some (Scripted.ENOENT "stat" name), w);
  ioutil_ReadFile name w := ((Nil, Some (Scripted.ENOENT "open" name)), w);
  Cmd_CombinedOutput := exec
}.

Definition start (w : store) : State store := mkState w [].

(** The file store of the host. *)
Definition contents_of (w : store) (p : string) : option string := w p.

End MemFS.

(** ** What the operations expect of a host that keeps files

    [content w p] is the contents of the file at [p] on the host in state
    [w], if there is one. The laws say that the answers of the host agree
    with it: probes change no file and succeed only on files that are
    there, and a subprocess that succeeds has done what it was asked. *)

Module Laws.

Import kbfs Spec.

Section Laws.

Context {W : Type} `{Host W}.
Variable ko : Operation.
Variable content : W -> string -> option string.

Definition stat_keeps : Prop :=
  forall n w p, content (snd (os_Stat n w)) p = content w p.

Definition stat_truthful : Prop :=
  forall p w, fst (os_Stat p w) = None -> content w p <> None.

Definition readfile_truthful : Prop :=
  forall p w,
    snd (fst (ioutil_ReadFile p w)) = None ->
    content w p = Some (string_of_bytes (fst (fst (ioutil_ReadFile p w)))).

Definition fs_stat_keeps : Prop :=
  forall p w q,
    content (snd (Cmd_CombinedOutput (stat_cmd ko p) w)) q = content w q.

Definition fs_stat_truthful : Prop :=
  forall p w,
    snd (fst (Cmd_CombinedOutput (stat_cmd ko p) w)) = None ->
    content w p <> None.

Definition fs_read_truthful : Prop :=
  forall p w,
    snd (fst (Cmd_CombinedOutput (read_cmd ko p) w)) = None ->
    content w p
    = Some (string_of_bytes (fst (fst (Cmd_CombinedOutput (read_cmd ko p) w)))).

Definition fs_write_writes : Prop :=
  forall p c w,
    snd (fst (Cmd_CombinedOutput (write_cmd ko p c) w)) = None ->
    content (snd (Cmd_CombinedOutput (write_cmd ko p c) w)) p = Some c.

Definition fs_append_appends : Prop :=
  forall p c w old,
    content w p = Some old ->
    snd (fst (Cmd_CombinedOutput (append_cmd ko p c) w)) = None ->
    content (snd (Cmd_CombinedOutput (append_cmd ko p c) w)) p
    = Some (old ++ c)%string.


End Laws.

End Laws.

(** * Properties *)

(** ** Strings *)

Section StringFacts.

Import Spec.

Lemma prefix_append (p s : string) : String.prefix p (p ++ s) = true.
Proof.
  induction p as [|c p IH]; simpl.
  - destruct s; reflexivity.
  - rewrite IH. destruct (ascii_dec c c); [reflexivity|congruence].
Qed.

Lemma append_assoc (a b c : string) : ((a ++ b) ++ c = a ++ (b ++ c))%string.
Proof. induction a as [|x a IH]; simpl; [reflexivity|now rewrite IH]. Qed.

(** A string contains each of its infixes. *)
Lemma Contains_infix (a b c : string) : Contains (a ++ b ++ c) b = true.
Proof.
  induction a as [|x a IH].
  - change (Contains (b ++ c) b = true).
    pose proof (prefix_append b c) as Hp.
    destruct (b ++ c)%string; cbn [Contains]; rewrite Hp; reflexivity.
  - cbn [String.append Contains]. rewrite IH.
    destruct (String.prefix b _); reflexivity.
Qed.

(** Joining the pieces of [Split] with the separator gives the string
    back, and no piece holds the separator. *)
Lemma Split_nonempty (s : string) (sep : ascii) : Split s sep <> [].
Proof.
  induction s as [|c s IH]; simpl; [discriminate|].
  destruct (Ascii.eqb c sep); [discriminate|].
  destruct (Split s sep); discriminate.
Qed.

Lemma Join_Split (s : string) (sep : ascii) : Join (Split s sep) sep = s.
Proof.
  induction s as [|c s IH]; simpl; [reflexivity|].
  destruct (Ascii.eqb c sep) eqn:E.
  - apply Ascii.eqb_eq in E. subst c.
    pose proof (Split_nonempty s sep) as Hne.
    simpl. destruct (Split s sep) as [|p ps]; [congruence|].
    now rewrite IH.
  - pose proof (Split_nonempty s sep) as Hne.
    destruct (Split s sep) as [|p ps]; [congruence|].
    simpl in *. destruct ps; simpl in *; now rewrite <- IH.
Qed.

Lemma Split_pieces (s : string) (sep : ascii) :
  Forall (fun p => has_byte sep p = false) (Split s sep).
Proof.
  induction s as [|c s IH]; simpl.
  - repeat constructor.
  - destruct (Ascii.eqb c sep) eqn:E.
    + constructor; [reflexivity|exact IH].
    + destruct (Split s sep) as [|p ps].
      * repeat constructor. simpl. now rewrite E.
      * inversion IH; subst. constructor; [|assumption].
        simpl. now rewrite E.
Qed.

End StringFacts.

(** ** The argument scanner *)

Section ScannerFacts.

Import kssh Spec.

Lemma appends_Slice {A} (l r : list A) : appends (Slice l) r = Slice (l ++ r).
Proof.
  revert l. induction r as [|x r IH]; intros l; simpl.
  - now rewrite app_nil_r.
  - change (appends (Slice (l ++ [x])) r = Slice (l ++ x :: r)).
    rewrite IH, <- app_assoc. reflexivity.
Qed.

Lemma resume_keep remaining found t r :
  resume (append remaining t) found r = resume remaining found (keep t r).
Proof. destruct r; reflexivity. Qed.

Lemma resume_matched remaining found p r :
  resume remaining (append found p) r = resume remaining found (matched p r).
Proof. destruct r; reflexivity. Qed.

Lemma resume_start r : resume (Slice []) (Slice []) r = to_results r.
Proof. destruct r; simpl; [|reflexivity]. now rewrite !appends_Slice. Qed.

Lemma Errorf_missing_value (d : CLIArgument) :
  Errorf "argument %s requires a value" [OpString (Name d)] = missing_value d.
Proof. reflexivity. Qed.

(** The loop over the descriptors stops at the first one named like the
    token. *)
Lemma inner_first_match args i arg descs :
  inner args i arg descs =
  match first_match descs arg with
  | None => NoMatch
  | Some d =>
      if HasArgument d then
        if Nat.eqb (i + 1) (length args) then ReturnErr (missing_value d)
        else match args !! (i + 1) with
             | None => IndexOutOfRange
             | Some v => ContinueOuter (mkParsed d v) (i + 1)
             end
      else ContinueOuter (mkParsed d "") i
  end.
Proof.
  induction descs as [|d descs IH]; simpl; [reflexivity|].
  destruct (String.eqb (Name d) arg); [|exact IH].
  rewrite Errorf_missing_value. reflexivity.
Qed.

(** Forget the bookkeeping equations of the functional elimination. *)
Ltac forget_calls :=
  repeat match goal with
    | E : @sigmaI _ _ _ _ = _ |- _ => clear E
    | E : lt_dec _ _ = _ |- _ => clear E
    | E : _ = outer _ _ _ _ _ |- _ => clear E
    end.

Ltac by_hypothesis :=
  match goal with
  | IH : _ -> outer _ _ _ _ _ = _ |- _ => rewrite IH by lia
  end.

(** From position [i] on, the loop computes the scan of the tokens that
    are left. *)
Lemma outer_scan args descs i remaining found :
  i <= length args ->
  outer args descs i remaining found =
  Some (resume remaining found (scan descs (drop i args))).
Proof.
  funelim (outer args descs i remaining found); intros Hi; forget_calls.
  - rewrite drop_ge by lia. reflexivity.
  - pose proof (proj1 (lookup_ge_None _ _) e). lia.
  - rewrite inner_first_match in e0.
    rewrite (drop_S _ _ _ e2). simpl.
    destruct (first_match cliArguments arg) as [d|]; [|discriminate].
    destruct (HasArgument d); [|discriminate].
    destruct (Nat.eqb (i + 1) (length args)) eqn:E.
    + injection e0 as <-. apply Nat.eqb_eq in E.
      rewrite drop_ge by lia. reflexivity.
    + destruct (args !! (i + 1)); discriminate.
  - rewrite inner_first_match in Hin.
    rewrite (drop_S _ _ _ e). simpl.
    destruct (first_match cliArguments arg) as [d|]; [|discriminate].
    destruct (HasArgument d).
    + destruct (Nat.eqb (i + 1) (length args)); [discriminate|].
      destruct (args !! (i + 1)) as [v|] eqn:Ev; [|discriminate].
      injection Hin as <- <-.
      replace (S i) with (i + 1) by lia.
      rewrite (drop_S _ _ _ Ev).
      pose proof (lookup_lt_Some _ _ _ Ev).
      by_hypothesis. rewrite resume_matched.
      replace (i + 1 + 1) with (S (i + 1)) by lia. reflexivity.
    + injection Hin as <- <-.
      by_hypothesis. rewrite resume_matched.
      replace (i + 1) with (S i) by lia. reflexivity.
  - rewrite inner_first_match in e0.
    rewrite (drop_S _ _ _ e). simpl.
    destruct (first_match cliArguments arg) as [d|].
    + destruct (HasArgument d); [|discriminate].
      destruct (Nat.eqb (i + 1) (length args)); [discriminate|].
      destruct (args !! (i + 1)); discriminate.
    + by_hypothesis. rewrite resume_keep.
      replace (i + 1) with (S i) by lia. reflexivity.
  - rewrite inner_first_match in e0.
    destruct (first_match cliArguments arg) as [d|]; [|discriminate].
    destruct (HasArgument d); [|discriminate].
    destruct (Nat.eqb (i + 1) (length args)) eqn:E; [discriminate|].
    apply Nat.eqb_neq in E.
    destruct (args !! (i + 1)) eqn:Ev; [discriminate|].
    pose proof (proj1 (lookup_ge_None _ _) Ev). lia.
Qed.

(** [ParseArgs] never stops on an index out of range, and computes the
    scan of the specification. *)
Lemma ParseArgs_scan args descs :
  ParseArgs args descs = Some (to_results (scan descs args)).
Proof.
  unfold ParseArgs. rewrite outer_scan by lia.
  rewrite drop_0, resume_start. reflexivity.
Qed.

End ScannerFacts.

Section ScanFacts.

Import kssh Spec.

Variable descs : list CLIArgument.

Lemma first_match_Some t d :
  first_match descs t = Some d ->
  In d descs /\ Name d = t /\ first_match descs (Name d) = Some d.
Proof.
  intros Hf. destruct (find_some _ _ Hf) as [Hin Heq].
  apply String.eqb_eq in Heq. subst t. auto.
Qed.

(** The scan of a token sequence is a weave of its two results. Proved for
    all sequences up to a length, since a flag with a value skips a token. *)
Lemma scan_Weave_upto n : forall tokens,
  length tokens <= n ->
  match scan descs tokens with
  | ScanOk remaining matches => Weave descs remaining matches tokens
  | MissingValue _ => True
  end.
Proof.
  induction n as [|n IH]; intros [|t rest] Hn; simpl in *;
    try (constructor; fail); try lia.
  destruct (first_match descs t) as [d|] eqn:Hf.
  - destruct (first_match_Some _ _ Hf) as (_ & <- & Hd).
    destruct (HasArgument d) eqn:Hv.
    + destruct rest as [|v rest']; [exact I|].
      specialize (IH rest' ltac:(simpl in Hn; lia)).
      destruct (scan descs rest'); [|exact I]. simpl.
      apply (weave_match descs (mkParsed d v)) in IH; simpl; auto.
      * unfold tokens_of in IH. simpl in IH. rewrite Hv in IH. exact IH.
      * congruence.
    + specialize (IH rest ltac:(lia)).
      destruct (scan descs rest); [|exact I]. simpl.
      apply (weave_match descs (mkParsed d "")) in IH; simpl; auto.
      unfold tokens_of in IH. simpl in IH. rewrite Hv in IH. exact IH.
  - specialize (IH rest ltac:(lia)).
    destruct (scan descs rest); [|exact I]. simpl.
    now constructor.
Qed.

Lemma scan_Weave tokens remaining matches :
  scan descs tokens = ScanOk remaining matches ->
  Weave descs remaining matches tokens.
Proof.
  intros E. pose proof (scan_Weave_upto (length tokens) tokens (le_n _)) as H.
  now rewrite E in H.
Qed.

(** A weave leaves the scan no choice. *)
Lemma Weave_scan tokens remaining matches :
  Weave descs remaining matches tokens ->
  scan descs tokens = ScanOk remaining matches.
Proof.
  induction 1 as [|t remaining matches tokens Hf _ IH
                  |p remaining matches tokens Hf Hv _ IH].
  - reflexivity.
  - simpl. now rewrite Hf, IH.
  - destruct p as [d v]. unfold tokens_of in *. simpl in *.
    destruct (HasArgument d) eqn:E; simpl; rewrite Hf, E, IH.
    + reflexivity.
    + now rewrite Hv.
Qed.

Lemma scan_app_upto n : forall front back remaining matches,
  length front <= n ->
  scan descs front = ScanOk remaining matches ->
  scan descs (front ++ back) = prepend remaining matches (scan descs back).
Proof.
  induction n as [|n IH]; intros [|t rest] back remaining matches Hn;
    simpl in *; try lia.
  - intros [= <- <-]. now destruct (scan descs back).
  - intros [= <- <-]. now destruct (scan descs back).
  - destruct (first_match descs t) as [d|].
    + destruct (HasArgument d).
      * destruct rest as [|v rest']; [discriminate|]. simpl in *.
        destruct (scan descs rest') as [r m|] eqn:E; [|discriminate].
        intros [= <- <-]. rewrite (IH rest' back r m) by (auto; lia).
        now destruct (scan descs back).
      * destruct (scan descs rest) as [r m|] eqn:E; [|discriminate].
        intros [= <- <-]. rewrite (IH rest back r m) by (auto; lia).
        now destruct (scan descs back).
    + destruct (scan descs rest) as [r m|] eqn:E; [|discriminate].
      intros [= <- <-]. rewrite (IH rest back r m) by (auto; lia).
      now destruct (scan descs back).
Qed.

Lemma scan_app front back remaining matches :
  scan descs front = ScanOk remaining matches ->
  scan descs (front ++ back) = prepend remaining matches (scan descs back).
Proof. apply (scan_app_upto (length front)). lia. Qed.

(** When a scan stops for want of a value, the last token is the flag. *)
Lemma scan_MissingValue_last_upto n : forall tokens flag,
  length tokens <= n ->
  scan descs tokens = MissingValue flag ->
  exists front, tokens = front ++ [Name flag]
                /\ first_match descs (Name flag) = Some flag
                /\ HasArgument flag = true
                /\ exists remaining matches,
                     scan descs front = ScanOk remaining matches.
Proof.
  induction n as [|n IH]; intros [|x rest] flag Hn; simpl in *;
    try lia; try discriminate.
  destruct (first_match descs x) as [d|] eqn:Hf.
  - destruct (first_match_Some _ _ Hf) as (_ & <- & Hd).
    destruct (HasArgument d) eqn:Hv.
    + destruct rest as [|v rest']; simpl in *.
      * intros [= <-]. exists []. simpl. eauto 6.
      * destruct (scan descs rest') as [r m|c] eqn:E; [discriminate|].
        intros [= <-].
        destruct (IH rest' c ltac:(lia) E) as (front & -> & ? & ? & r & m & Hs).
        exists (Name d :: v :: front). simpl.
        rewrite Hd, Hv, Hs. simpl. eauto 8.
    + destruct (scan descs rest) as [r m|c] eqn:E; [discriminate|].
      intros [= <-].
      destruct (IH rest c ltac:(lia) E) as (front & -> & ? & ? & r & m & Hs).
      exists (Name d :: front). simpl.
      rewrite Hd, Hv, Hs. simpl. eauto 8.
  - destruct (scan descs rest) as [r m|c] eqn:E; [discriminate|].
    intros [= <-].
    destruct (IH rest c ltac:(lia) E) as (front & -> & ? & ? & r & m & Hs).
    exists (x :: front). simpl.
    rewrite Hf, Hs. simpl. eauto 8.
Qed.

End ScanFacts.

Section Scanner.

Import kssh Spec Scripted.

(** C7. For every token sequence and descriptor set, [ParseArgs] computes
    the one-pass scan of the specification, and it returns without error the
    remaining tokens and the matches exactly when the token sequence is
    their weave: the remaining tokens are those that equal no name, in their
    order; the matches come in the order of their flags in the input, each
    with the first descriptor named like its token; every token belongs to
    exactly one of the two, and a token taken as the value of a flag is part
    of that match and is not compared with the names. *)
Theorem ParseArgs_weaves args descs remaining found :
  ParseArgs args descs = Some (to_results (scan descs args))
  /\ (ParseArgs args descs = Some (Slice remaining, Slice found, None)
      <-> Weave descs remaining found args).
Proof.
  split; [apply ParseArgs_scan|].
  rewrite ParseArgs_scan. split.
  - intros [= E]. apply scan_Weave.
    destruct (scan descs args); simpl in E; [|discriminate].
    now injection E as <- <-.
  - intros Hw. now rewrite (Weave_scan _ _ _ _ Hw).
Qed.

Lemma ParseArgs_weaves_witness :
  Weave flags ["a"; "b"]
    [ mkParsed (mkCLIArgument "--team" true) "--help";
      mkParsed (mkCLIArgument "--help" false) "" ]
    ["a"; "--team"; "--help"; "b"; "--help"].
Proof.
  apply (proj1 (proj2 (ParseArgs_weaves ["a"; "--team"; "--help"; "b"; "--help"]
                         flags _ _))).
  vm_compute. reflexivity.
Defined.

(** C8, as the code has it. [ParseArgs] fails exactly when the tokens
    before the last one scan without error, so that the last token is not
    taken as the value of the flag before it, and the first descriptor
    named like the last token requires a value; the error is then
    "argument NAME requires a value". It succeeds whenever no descriptor
    that requires a value is named like the last token. *)
Theorem ParseArgs_missing_value args descs e :
  (ParseArgs args descs = Some (Nil, Nil, Some e)
   <-> exists front flag,
         args = front ++ [Name flag]
         /\ (exists remaining found,
               ParseArgs front descs = Some (Slice remaining, Slice found, None))
         /\ first_match descs (Name flag) = Some flag
         /\ HasArgument flag = true
         /\ e = missing_value flag)
  /\ ((forall d front, In d descs -> HasArgument d = true ->
                       args <> front ++ [Name d]) ->
      exists remaining found,
        ParseArgs args descs = Some (Slice remaining, Slice found, None)).
Proof.
  assert (Hlast : forall flag, scan descs args = MissingValue flag ->
            exists front, args = front ++ [Name flag]
              /\ first_match descs (Name flag) = Some flag
              /\ HasArgument flag = true
              /\ exists remaining matches,
                   scan descs front = ScanOk remaining matches)
    by (intros flag; apply (scan_MissingValue_last_upto _ (length args)); lia).
  split; [split|].
  - rewrite ParseArgs_scan. intros [= E].
    destruct (scan descs args) as [|flag] eqn:Hs; [discriminate|].
    injection E as <-.
    destruct (Hlast flag eq_refl) as (front & -> & Hf & Hv & r & m & Hfront).
    exists front, flag. rewrite ParseArgs_scan, Hfront. simpl. eauto 8.
  - intros (front & flag & -> & (r & m & Hfront) & Hf & Hv & ->).
    rewrite ParseArgs_scan in *. injection Hfront as Hfront.
    destruct (scan descs front) as [r' m'|] eqn:Hs; [|discriminate].
    rewrite (scan_app _ _ _ _ _ Hs). simpl. now rewrite Hf, Hv.
  - intros Hno. rewrite ParseArgs_scan.
    destruct (scan descs args) as [r m|flag] eqn:Hs; [simpl; eauto|].
    destruct (Hlast flag eq_refl) as (front & -> & Hf & Hv & _).
    destruct (first_match_Some _ _ _ Hf) as (Hin & _).
    now destruct (Hno flag front).
Qed.

Lemma ParseArgs_missing_value_witness :
  ParseArgs ["a"; "--help"; "--team"] flags
  = Some (Nil, Nil, Some (mkError "argument --team requires a value" false))
  /\ exists remaining found,
       ParseArgs ["--team"; "b"] flags = Some (Slice remaining, Slice found, None).
Proof.
  split.
  - apply (proj2 (proj1 (ParseArgs_missing_value ["a"; "--help"; "--team"] flags _))).
    exists ["a"; "--help"], (mkCLIArgument "--team" true).
    repeat split; try reflexivity.
    eexists _, _. vm_compute. reflexivity.
  - apply (proj2 (ParseArgs_missing_value ["--team"; "b"] flags
                    (mkError "" false))).
    intros d front Hin Hv E.
    apply (f_equal (@rev string)) in E. rewrite rev_unit in E. simpl in E.
    injection E as E _.
    simpl in Hin. destruct Hin as [<-|[<-|[<-|[]]]]; discriminate.
Defined.

(** C8, as the claim has it, fails: the last token is named like a flag
    that requires a value, yet the scan succeeds, in the first case because
    the token is the value of the flag before it, in the second because an
    earlier descriptor of the same name takes no value. *)
Lemma ParseArgs_last_token_not_missing :
  let team := mkCLIArgument "--team" true in
  List.last ["--team"; "--team"] "" = Name team
  /\ In team [team] /\ HasArgument team = true
  /\ ParseArgs ["--team"; "--team"] [team]
     = Some (Slice [], Slice [mkParsed team "--team"], None)
  /\ List.last ["--help"] "" = "--help"
  /\ In (mkCLIArgument "--help" true) flags
  /\ ParseArgs ["--help"] flags
     = Some (Slice [], Slice [mkParsed (mkCLIArgument "--help" false) ""], None).
Proof. vm_compute. intuition. Qed.

(** C10. [ParseArgs] either returns two slices that are not nil and a nil
    error, or returns an error with both slices nil. *)
Theorem ParseArgs_error_results_nil args descs :
  (exists remaining found,
     ParseArgs args descs = Some (Slice remaining, Slice found, None))
  \/ (exists e, ParseArgs args descs = Some (Nil, Nil, Some e)).
Proof.
  rewrite ParseArgs_scan.
  destruct (scan descs args); simpl; eauto.
Qed.

End Scanner.

(** ** The file operations *)

Section Reports.

Import Spec.

Variable TrimSpace : string -> string.

Lemma report_mentions what path out e :
  mentions (report what TrimSpace path out e)
           [path; TrimSpace (string_of_bytes out); Error e].
Proof.
  unfold mentions, report. cbn [Error].
  set (t := TrimSpace (string_of_bytes out)).
  repeat constructor.
  - apply Contains_infix.
  - replace (what ++ path ++ ": " ++ t ++ " (" ++ Error e ++ ")")%string
      with ((what ++ path ++ ": ") ++ t ++ " (" ++ Error e ++ ")")%string
      by (now rewrite !append_assoc).
    apply Contains_infix.
  - replace (what ++ path ++ ": " ++ t ++ " (" ++ Error e ++ ")")%string
      with ((what ++ path ++ ": " ++ t ++ " (") ++ Error e ++ ")")%string
      by (now rewrite !append_assoc).
    apply Contains_infix.
Qed.

(** The error of a failed listing names the trimmed output and the error
    of the invocation. *)
Lemma list_report_mentions out e :
  mentions
    (Errorf "failed to list files in /keybase/team/: %s (%v)"
       [OpString (TrimSpace (string_of_bytes out)); OpError (Some e)])
    [TrimSpace (string_of_bytes out); Error e].
Proof.
  unfold mentions. set (t := TrimSpace (string_of_bytes out)).
  change (Error (Errorf "failed to list files in /keybase/team/: %s (%v)"
                   [OpString t; OpError (Some e)]))
    with ("failed to list files in /keybase/team/: " ++ t ++ " (" ++ Error e ++ ")")%string.
  repeat constructor.
  - apply Contains_infix.
  - replace ("failed to list files in /keybase/team/: " ++ t ++ " (" ++ Error e ++ ")")%string
      with (("failed to list files in /keybase/team/: " ++ t ++ " (") ++ Error e ++ ")")%string
      by (now rewrite !append_assoc).
    apply Contains_infix.
Qed.

(** The loop of [List] keeps the pieces that are not empty, and leaves the
    slice nil when there is none. *)
Lemma List_loop_appends pieces acc :
  fold_left (fun ret s => if negb (String.eqb s "") then append ret s else ret)
    pieces acc
  = appends acc (List.filter nonempty pieces).
Proof.
  revert acc. induction pieces as [|p pieces IH]; intros acc; simpl.
  - reflexivity.
  - rewrite IH. unfold nonempty at 2.
    destruct (negb (String.eqb p "")); reflexivity.
Qed.

Lemma List_loop_filter pieces :
  elems (kbfs.List_loop pieces) = List.filter nonempty pieces
  /\ (kbfs.List_loop pieces = Nil <-> List.filter nonempty pieces = []).
Proof.
  unfold kbfs.List_loop. rewrite List_loop_appends.
  destruct (List.filter nonempty pieces) as [|p l]; simpl.
  - split; [reflexivity|tauto].
  - change (appends (append Nil p) l) with (appends (Slice [p]) l).
    rewrite appends_Slice. simpl. split; [reflexivity|].
    split; discriminate.
Qed.

End Reports.

Section Facade.

Import kbfs Spec.

Context {W : Type} `{Host W}.
Variable TrimSpace : string -> string.
Variable ko : Operation.

(** Unfold the monad and name what the host answers. *)
Ltac step :=
  unfold Go.bind, Go.ret, Stat, ReadFile, CombinedOutput in *;
  cbn [world trace fst snd] in *.

Ltac host_answers :=
  repeat match goal with
    | |- context [os_Stat ?n ?w] =>
        let e := fresh "e" in let w' := fresh "w" in
        destruct (os_Stat n w) as [e w']; cbn [world trace fst snd]
    | |- context [ioutil_ReadFile ?n ?w] =>
        let r := fresh "r" in let w' := fresh "w" in
        destruct (ioutil_ReadFile n w) as [r w']; cbn [world trace fst snd]
    | |- context [Cmd_CombinedOutput ?c ?w] =>
        let out := fresh "out" in let e := fresh "e" in let w' := fresh "w" in
        destruct (Cmd_CombinedOutput c w) as [[out e] w'];
        cbn [world trace fst snd]
    end.

(** C3. [supportsFuse] stats the root and the team, private and public
    directories, in this order, and returns true if and only if all four
    succeed; if any of them fails it returns false. *)
Theorem supportsFuse_all_four (s : State W) :
  let (e1, w1) := os_Stat "/keybase" (world s) in
  let (e2, w2) := os_Stat "/keybase/team" w1 in
  let (e3, w3) := os_Stat "/keybase/private" w2 in
  let (e4, w4) := os_Stat "/keybase/public" w3 in
  snd (supportsFuse s)
  = mkState w4 (trace s ++ [EvStat "/keybase" e1; EvStat "/keybase/team" e2;
                            EvStat "/keybase/private" e3;
                            EvStat "/keybase/public" e4])
  /\ (fst (supportsFuse s) = true
      <-> e1 = None /\ e2 = None /\ e3 = None /\ e4 = None)
  /\ (fst (supportsFuse s) = false
      <-> e1 <> None \/ e2 <> None \/ e3 <> None \/ e4 <> None).
Proof.
  unfold supportsFuse. step. host_answers.
  rewrite <- !app_assoc. simpl.
  split; [reflexivity|].
  repeat match goal with e : option error |- _ => destruct e end;
    simpl; intuition congruence.
Qed.

(** C9. [FileExists] returns [(true, nil)], or else its boolean is false:
    it never returns true together with an error. *)
Theorem FileExists_true_without_error (filename : string) (s : State W) :
  fst (FileExists TrimSpace ko filename s) = (true, None)
  \/ fst (fst (FileExists TrimSpace ko filename s)) = false.
Proof.
  unfold FileExists, supportsFuse. step. host_answers.
  destruct (_ && _); step; host_answers.
  - destruct e3 as [e'|]; [destruct (IsNotExist e')|]; simpl; auto.
  - destruct e3; [destruct (Contains _ _)|]; simpl; auto.
Qed.

(** C2, as the code has it. On the bridge backend, [FileExists] spawns
    [keybase fs stat P] and returns [(true, nil)] if that succeeds;
    [(false, nil)] if it fails and the combined output contains
    "ERROR file does not exist"; and otherwise [false] with the error
    "failed to stat P: OUTPUT (ERR)", where OUTPUT is the trimmed combined
    output and ERR the error of the invocation. *)
Theorem FileExists_bridge (filename : string) (s s1 : State W)
  (out : bytes) (err : option error) (w2 : W) :
  supportsFuse s = (false, s1) ->
  Cmd_CombinedOutput (stat_cmd ko filename) (world s1) = ((out, err), w2) ->
  FileExists TrimSpace ko filename s
  = (match err with
     | None => (true, None)
     | Some e =>
         if Contains (string_of_bytes out) "ERROR file does not exist"
         then (false, None)
         else (false, Some (report "failed to stat " TrimSpace filename out e))
     end,
     mkState w2 (trace s1 ++ [EvSpawn (stat_cmd ko filename) (out, err)])).
Proof.
  intros Hfuse Hstat. unfold FileExists. unfold Go.bind at 1.
  rewrite Hfuse. step.
  change (Command (KeybaseBinaryPath ko) ["fs"; "stat"; filename])
    with (stat_cmd ko filename).
  rewrite Hstat.
  destruct err as [e|]; [|reflexivity].
  destruct (Contains _ _); reflexivity.
Qed.

(** A write that does not append is one subprocess. *)
Lemma Write_overwrite (filename contents : string) (s : State W) :
  Write TrimSpace ko filename contents false s
  = let (r, w) := Cmd_CombinedOutput (write_cmd ko filename contents) (world s) in
    (write_report TrimSpace filename r,
     mkState w (trace s ++ [EvSpawn (write_cmd ko filename contents) r])).
Proof.
  rewrite Write_equation_2. unfold Write_run. step.
  change (with_Stdin _ contents) with (write_cmd ko filename contents).
  destruct (Cmd_CombinedOutput _ _) as [[out [e|]] w]; reflexivity.
Qed.

(** The last step of an appending write. *)
Lemma Write_run_append (filename contents : string) (s : State W) :
  Write_run TrimSpace filename contents
    (Run (Command (KeybaseBinaryPath ko) ["fs"; "write"; "--append"; filename])) s
  = let (r, w) := Cmd_CombinedOutput (append_cmd ko filename contents) (world s) in
    (write_report TrimSpace filename r,
     mkState w (trace s ++ [EvSpawn (append_cmd ko filename contents) r])).
Proof.
  unfold Write_run. step.
  change (with_Stdin _ contents) with (append_cmd ko filename contents).
  destruct (Cmd_CombinedOutput _ _) as [[out [e|]] w]; reflexivity.
Qed.

(** The three ways an appending write can go. *)
Lemma Write_append_cases (filename contents : string) (s : State W) :
  let (ex, s1) := FileExists TrimSpace ko filename s in
  let (res, s') := Write TrimSpace ko filename contents true s in
  (ex = (true, None)
   /\ exists ra,
        Cmd_CombinedOutput (append_cmd ko filename contents) (world s1)
        = (ra, world s')
        /\ trace s' = trace s1 ++ [EvSpawn (append_cmd ko filename contents) ra]
        /\ res = write_report TrimSpace filename ra)
  \/ ((fst ex = false \/ exists e, snd ex = Some e)
      /\ exists rc e,
           Cmd_CombinedOutput (write_cmd ko filename "") (world s1)
           = (rc, world s')
           /\ snd rc = Some e
           /\ trace s' = trace s1 ++ [EvSpawn (write_cmd ko filename "") rc]
           /\ res = Some (report "failed to write to file at " TrimSpace
                            filename (fst rc) e))
  \/ ((fst ex = false \/ exists e, snd ex = Some e)
      /\ exists rc w2 ra,
           Cmd_CombinedOutput (write_cmd ko filename "") (world s1) = (rc, w2)
           /\ snd rc = None
           /\ Cmd_CombinedOutput (append_cmd ko filename contents) w2
              = (ra, world s')
           /\ trace s' = trace s1 ++ [EvSpawn (write_cmd ko filename "") rc;
                                      EvSpawn (append_cmd ko filename contents) ra]
           /\ res = write_report TrimSpace filename ra).
Proof.
  rewrite Write_equation_1. unfold Go.bind at 1 2.
  destruct (FileExists TrimSpace ko filename s) as [[exist err] s1].
  assert (Hcreate :
    negb exist || negb (is_nil_err err) = true ->
    fst (exist, err) = false \/ exists e, snd (exist, err) = Some e).
  { destruct exist, err; simpl; eauto; discriminate. }
  destruct (negb exist || negb (is_nil_err err)) eqn:Hneed.
  - specialize (Hcreate eq_refl). unfold Go.bind at 1.
    rewrite Write_overwrite.
    destruct (Cmd_CombinedOutput (write_cmd ko filename "") (world s1))
      as [[outc [ec|]] w2] eqn:Hc.
    + unfold write_report at 1. cbn [fst snd].
      unfold Go.ret, Write_run. cbv beta iota.
      unfold Go.ret. cbv beta iota.
      right; left. split; [exact Hcreate|].
      exists (outc, Some ec), ec. cbn. auto.
    + unfold write_report at 1. cbn [fst snd].
      unfold Go.ret. cbv beta iota.
      rewrite Write_run_append. cbn [world trace].
      destruct (Cmd_CombinedOutput (append_cmd ko filename contents) w2)
        as [ra w3] eqn:Ha.
      right; right. split; [exact Hcreate|].
      exists (outc, None), w2, ra. cbn. rewrite <- app_assoc. auto.
  - destruct exist, err; try discriminate.
    unfold Go.ret. cbv beta iota. rewrite Write_run_append.
    destruct (Cmd_CombinedOutput (append_cmd ko filename contents) (world s1))
      as [ra w3] eqn:Ha.
    left. split; [reflexivity|].
    exists ra. cbn. auto.
Qed.

(** C1. An appending [Write] begins with [FileExists]. If that returns
    [(true, nil)] the only subprocess after it is [write --append], with
    the contents on its standard input. If it returns false or an error,
    [Write] first spawns [write] with empty standard input; if this fails,
    its error is returned and nothing else is spawned; if it succeeds,
    [write --append] follows, with the contents on its standard input. *)
Theorem Write_append_creates_first (filename contents : string) (s : State W) :
  let (ex, s1) := FileExists TrimSpace ko filename s in
  let (res, s') := Write TrimSpace ko filename contents true s in
  (ex = (true, None)
   /\ exists ra,
        Cmd_CombinedOutput (append_cmd ko filename contents) (world s1)
        = (ra, world s')
        /\ trace s' = trace s1 ++ [EvSpawn (append_cmd ko filename contents) ra]
        /\ res = write_report TrimSpace filename ra)
  \/ ((fst ex = false \/ exists e, snd ex = Some e)
      /\ exists rc e,
           Cmd_CombinedOutput (write_cmd ko filename "") (world s1)
           = (rc, world s')
           /\ snd rc = Some e
           /\ trace s' = trace s1 ++ [EvSpawn (write_cmd ko filename "") rc]
           /\ res = Some (report "failed to write to file at " TrimSpace
                            filename (fst rc) e))
  \/ ((fst ex = false \/ exists e, snd ex = Some e)
      /\ exists rc w2 ra,
           Cmd_CombinedOutput (write_cmd ko filename "") (world s1) = (rc, w2)
           /\ snd rc = None
           /\ Cmd_CombinedOutput (append_cmd ko filename contents) w2
              = (ra, world s')
           /\ trace s' = trace s1 ++ [EvSpawn (write_cmd ko filename "") rc;
                                      EvSpawn (append_cmd ko filename contents) ra]
           /\ res = write_report TrimSpace filename ra).
Proof. exact (Write_append_cases filename contents s). Qed.

(** C4. When the [ls] subprocess succeeds, [List] returns a nil error and
    the lines of the combined output that are not empty, in their order:
    the output is cut at every newline, so that joining the pieces with
    newlines gives the output back and no piece holds a newline, and the
    empty pieces are dropped; the slice is nil exactly when no piece is
    left. *)
Theorem List_splits_output (path : string) (s : State W)
  (output : bytes) (w' : W) :
  Cmd_CombinedOutput (ls_cmd ko path) (world s) = ((output, None), w') ->
  exists ret pieces,
    fst (List TrimSpace ko path s) = (ret, None)
    /\ Join pieces newline = string_of_bytes output
    /\ Forall (fun p => has_byte newline p = false) pieces
    /\ elems ret = List.filter nonempty pieces
    /\ (ret = Nil <-> List.filter nonempty pieces = []).
Proof.
  intros Hls. unfold List. step.
  change (Command (KeybaseBinaryPath ko) ["fs"; "ls"; "-1"; "--nocolor"; path])
    with (ls_cmd ko path).
  rewrite Hls. cbn [fst].
  exists (List_loop (Split (string_of_bytes output) newline)),
         (Split (string_of_bytes output) newline).
  split; [reflexivity|].
  split; [apply Join_Split|].
  split; [apply Split_pieces|].
  apply List_loop_filter.
Qed.

Lemma spawned_app (t1 t2 : list Event) :
  spawned (t1 ++ t2) = spawned t1 ++ spawned t2.
Proof. unfold spawned. now rewrite !flat_map_concat_map, map_app, concat_app. Qed.

(** What ends a trace. *)
Lemma last_event (t1 t2 : list Event) (ev1 ev2 : Event) :
  t1 ++ [ev1] = t2 ++ [ev2] -> ev1 = ev2.
Proof. intros E. now apply app_inj_tail in E. Qed.

(** The events of [FileExists]: four probes, then one [stat], of the file
    or by subprocess. *)
Lemma FileExists_events (filename : string) (s : State W) :
  exists evs ev,
    trace (snd (FileExists TrimSpace ko filename s)) = trace s ++ evs ++ [ev]
    /\ spawned evs = []
    /\ ((exists e, ev = EvStat filename e)
        \/ (exists out err,
              ev = EvSpawn (stat_cmd ko filename) (out, err)
              /\ fst (FileExists TrimSpace ko filename s)
                 = match err with
                   | None => (true, None)
                   | Some e =>
                       if Contains (string_of_bytes out)
                            "ERROR file does not exist"
                       then (false, None)
                       else (false, Some (report "failed to stat " TrimSpace
                                            filename out e))
                   end)).
Proof.
  unfold FileExists, supportsFuse. step. host_answers.
  destruct (_ && _); step; host_answers.
  - eexists [_; _; _; _], _. rewrite <- !app_assoc.
    split; [destruct e3 as [e'|]; [destruct (IsNotExist e')|]; reflexivity|].
    split; [reflexivity|]. left. eauto.
  - eexists [_; _; _; _], _. rewrite <- !app_assoc.
    split; [destruct e3; [destruct (Contains _ _)|]; reflexivity|].
    split; [reflexivity|]. right. exists out, e3.
    split; [reflexivity|].
    destruct e3; [destruct (Contains _ _)|]; reflexivity.
Qed.

Ltac all_in :=
  simpl; repeat (constructor; [simpl; auto 6|]); constructor.

Lemma write_report_reported contents appendFlag path cmd r :
  reported TrimSpace (OpWrite contents appendFlag) path (EvSpawn cmd r)
           (write_report TrimSpace path r).
Proof.
  intros cmd' out e [= _ ->] _. unfold write_report. cbn [fst snd].
  eexists. split; [reflexivity|]. apply report_mentions.
Qed.

(** Every operation talks to the host at least once; the subprocesses it
    spawns are those of [commands_of]; and when the last of them fails, the
    failure is returned. *)
Lemma run_events (o : op) (path : string) (s : State W) :
  exists evs ev,
    trace (snd (run TrimSpace ko o path s)) = trace s ++ evs ++ [ev]
    /\ Forall (fun c => In c (commands_of ko o path)) (spawned (evs ++ [ev]))
    /\ reported TrimSpace o path ev (fst (run TrimSpace ko o path s)).
Proof.
  destruct o as [| |contents [|]| |]; unfold run.
  - (* Exists *)
    unfold Go.bind, Go.ret.
    destruct (FileExists_events path s) as (evs & ev & Ht & Hs & Hev).
    destruct (FileExists TrimSpace ko path s) as [r s1]. cbn [fst snd] in *.
    exists evs, ev. split; [exact Ht|].
    rewrite spawned_app, Hs. simpl.
    destruct Hev as [[e ->]|(out & err & -> & ->)].
    + split; [constructor|]. intros cmd out e' [=].
    + split; [all_in|].
      intros cmd out' e' [= _ <- ->] Hnf. simpl in Hnf. rewrite Hnf.
      eexists. split; [reflexivity|]. apply report_mentions.
  - (* Read *)
    unfold Read, supportsFuse. step. host_answers.
    destruct (_ && _); step; host_answers.
    + eexists [_; _; _; _], _. rewrite <- !app_assoc.
      split; [reflexivity|]. split; [constructor|].
      intros cmd out e' [=].
    + eexists [_; _; _; _], _. rewrite <- !app_assoc.
      split; [destruct e3; reflexivity|].
      split; [all_in|].
      intros cmd out' e' [= _ <- ->] _.
      eexists. split; [reflexivity|]. apply (report_mentions _ "failed to read ").
  - (* Write, appending *)
    pose proof (Write_append_cases path contents s) as Hw.
    destruct (FileExists_events path s) as (evs & ev & Ht & Hs & Hev).
    destruct (FileExists TrimSpace ko path s) as [ex s1].
    destruct (Write TrimSpace ko path contents true s) as [res s'].
    cbn [fst snd] in *.
    destruct Hw as [(_ & ra & _ & Htr & ->)
                   |[(_ & rc & e & _ & Hrc & Htr & ->)
                    |(_ & rc & w2 & ra & _ & _ & _ & Htr & ->)]].
    + exists (evs ++ [ev]), (EvSpawn (append_cmd ko path contents) ra).
      rewrite Htr, Ht, <- !app_assoc. split; [reflexivity|].
      split; [|apply write_report_reported].
      rewrite !spawned_app, Hs.
      destruct Hev as [[e0 ->]|(out & err & -> & _)]; all_in.
    + exists (evs ++ [ev]), (EvSpawn (write_cmd ko path "") rc).
      rewrite Htr, Ht, <- !app_assoc. split; [reflexivity|].
      split.
      * rewrite !spawned_app, Hs.
        destruct Hev as [[e0 ->]|(out & err & -> & _)]; all_in.
      * destruct rc as [outc errc]. simpl in Hrc. subst errc.
        apply (write_report_reported contents true path _ (outc, Some e)).
    + exists (evs ++ [ev; EvSpawn (write_cmd ko path "") rc]),
             (EvSpawn (append_cmd ko path contents) ra).
      rewrite Htr, Ht, <- !app_assoc. split; [reflexivity|].
      split; [|apply write_report_reported].
      rewrite !spawned_app, Hs.
      destruct Hev as [[e0 ->]|(out & err & -> & _)]; all_in.
  - (* Write, not appending *)
    rewrite Write_overwrite.
    destruct (Cmd_CombinedOutput _ _) as [r w]. cbn [fst snd trace].
    exists [], (EvSpawn (write_cmd ko path contents) r).
    split; [reflexivity|]. split; [all_in|].
    apply write_report_reported.
  - (* Delete *)
    unfold Delete. step. host_answers.
    exists [], (EvSpawn (rm_cmd ko path) (out, e)).
    split; [destruct e; reflexivity|]. split; [all_in|].
    intros cmd out' e' [= _ <- ->] _.
    eexists. split; [reflexivity|].
    apply (report_mentions _ "failed to delete the file at ").
  - (* List *)
    unfold List. step. host_answers.
    exists [], (EvSpawn (ls_cmd ko path) (out, e)).
    split; [destruct e; reflexivity|]. split; [all_in|].
    intros cmd out' e' [= _ <- ->] _.
    eexists. split; [reflexivity|]. apply list_report_mentions.
Qed.


Lemma commands_of_surface (o : op) (path : string) (c : Cmd) :
  In c (commands_of ko o path) ->
  Path c = KeybaseBinaryPath ko
  /\ exists a, In a (invocation_surface path)
               /\ Args c = KeybaseBinaryPath ko :: "fs" :: a.
Proof.
  destruct o as [| |contents [|]| |]; simpl; intros Hin;
    repeat (destruct Hin as [<-|Hin]; [split; [reflexivity|]|]);
    try contradiction;
    eexists; (split; [|reflexivity]); simpl; auto 10.
Qed.

(** C6, as the code has it. Every subprocess an operation spawns runs the
    control binary with the argument [fs] followed by one of the argument
    lists of the invocation surface, and nothing else: [fs stat P] for
    [FileExists]; [fs read P] for [Read]; [fs rm P] for [Delete];
    [fs write P] and [fs write --append P], with the contents on standard
    input, for [Write], which when appending may also spawn [fs stat P] and
    [fs write P] with empty standard input; [fs ls -1 --nocolor P] for
    [List]. *)
Theorem spawns_fs_subcommands (o : op) (path : string) (s : State W) :
  exists evs,
    trace (snd (run TrimSpace ko o path s)) = trace s ++ evs
    /\ Forall (fun c =>
                 In c (commands_of ko o path)
                 /\ Path c = KeybaseBinaryPath ko
                 /\ exists a, In a (invocation_surface path)
                              /\ Args c = KeybaseBinaryPath ko :: "fs" :: a)
              (spawned evs).
Proof.
  destruct (run_events o path s) as (evs & ev & Hevs & Hall & _).
  exists (evs ++ [ev]). split; [exact Hevs|].
  apply Forall_forall. intros c Hc.
  pose proof (proj1 (Forall_forall _ _) Hall c Hc) as Hin.
  split; [exact Hin|]. exact (commands_of_surface o path c Hin).
Qed.

End Facade.

(** ** The operations on a scripted host *)

Section Runs.

Import kbfs Spec Scripted.

(** With the four directories present the detector answers true; with one
    of them missing, false. *)
Example supportsFuse_mounted :
  fst (supportsFuse (start mount [])) = true
  /\ fst (supportsFuse (start ["/keybase"; "/keybase/team"; "/keybase/public"] []))
     = false.
Proof. split; reflexivity. Qed.

(** C2, as the claim has it, fails: the [stat] subprocess fails, its output
    contains "file does not exist", and [FileExists] returns an error, not
    [(false, nil)]. *)
Lemma FileExists_other_text_is_error :
  let s := start [] [fail_with "file does not exist"] in
  fst (supportsFuse s) = false
  /\ Contains "file does not exist" "file does not exist" = true
  /\ spawned (trace (snd (FileExists TrimSpace keybase config s)))
     = [stat_cmd keybase config]
  /\ fst (FileExists TrimSpace keybase config s)
     = (false,
        Some {| Error := "failed to stat /keybase/team/acme/kssh-client.config: file does not exist (exit status 1)";
                IsNotExist := false |})
  /\ fst (FileExists TrimSpace keybase config s) <> (false, None).
Proof. vm_compute. repeat split; discriminate. Qed.

Lemma FileExists_bridge_witness :
  FileExists TrimSpace keybase config
    (start [] [fail_with "  ERROR file does not exist
"])
  = ((false, None),
     mkState (mkHost [] [])
       [ EvStat "/keybase" (Some (ENOENT "stat" "/keybase"));
         EvStat "/keybase/team" (Some (ENOENT "stat" "/keybase/team"));
         EvStat "/keybase/private" (Some (ENOENT "stat" "/keybase/private"));
         EvStat "/keybase/public" (Some (ENOENT "stat" "/keybase/public"));
         EvSpawn (stat_cmd keybase config)
           (fail_with "  ERROR file does not exist
") ]).
Proof.
  apply (FileExists_bridge TrimSpace keybase config
           (start [] [fail_with "  ERROR file does not exist
"])
           (mkState (mkHost [] [fail_with "  ERROR file does not exist
"])
              [ EvStat "/keybase" (Some (ENOENT "stat" "/keybase"));
                EvStat "/keybase/team" (Some (ENOENT "stat" "/keybase/team"));
                EvStat "/keybase/private" (Some (ENOENT "stat" "/keybase/private"));
                EvStat "/keybase/public" (Some (ENOENT "stat" "/keybase/public")) ])
           (bytes_of_string "  ERROR file does not exist
")
           (Some exit_status_1) (mkHost [] [])).
  - reflexivity.
  - reflexivity.
Defined.

Lemma List_splits_output_witness :
  exists ret pieces,
    fst (List TrimSpace keybase "/keybase/team/acme"
           (start [] [say "kssh-client.config

ca.pub
"]))
    = (ret, None)
    /\ Join pieces newline = "kssh-client.config

ca.pub
"
    /\ Forall (fun p => has_byte newline p = false) pieces
    /\ elems ret = List.filter nonempty pieces
    /\ (ret = Nil <-> List.filter nonempty pieces = []).
Proof.
  apply (List_splits_output TrimSpace keybase "/keybase/team/acme"
           (start [] [say "kssh-client.config

ca.pub
"])
           (bytes_of_string "kssh-client.config

ca.pub
")
           (mkHost [] [])).
  reflexivity.
Defined.

Example List_drops_blank_lines :
  fst (List TrimSpace keybase "/keybase/team/acme"
         (start [] [say "kssh-client.config

ca.pub
"]))
  = (Slice ["kssh-client.config"; "ca.pub"], None)
  /\ fst (List TrimSpace keybase "/keybase/team/acme" (start [] [say "
"]))
     = (Nil, None).
Proof. split; reflexivity. Qed.

(** Appending to a file that is not there: the file is created first; when
    the creation fails, its error is returned and nothing is appended. *)
Example Write_append_to_missing_file :
  let r := Write TrimSpace keybase config "hello"  true
             (start [] [fail_with "ERROR file does not exist"; say ""; say ""]) in
  fst r = None
  /\ spawned (trace (snd r))
     = [stat_cmd keybase config; write_cmd keybase config "";
        append_cmd keybase config "hello"].
Proof. vm_compute. split; reflexivity. Qed.

Example Write_append_creation_fails :
  let r := Write TrimSpace keybase config "hello" true
             (start [] [fail_with "ERROR file does not exist";
                        fail_with " quota exceeded "; say ""]) in
  fst r = Some {| Error := "failed to write to file at /keybase/team/acme/kssh-client.config: quota exceeded (exit status 1)";
                  IsNotExist := false |}
  /\ spawned (trace (snd r))
     = [stat_cmd keybase config; write_cmd keybase config ""].
Proof. vm_compute. split; reflexivity. Qed.

Example Write_append_to_present_file :
  let r := Write TrimSpace keybase config "hello" true
             (start [] [say ""; say ""]) in
  fst r = None
  /\ spawned (trace (snd r))
     = [stat_cmd keybase config; append_cmd keybase config "hello"].
Proof. vm_compute. split; reflexivity. Qed.



(** The error of a failed listing names a fixed directory, whatever the
    path. *)
Example List_error_names_fixed_directory :
  fst (List TrimSpace keybase "/keybase/private/alice"
         (start [] [fail_with "no such directory
"]))
  = (Nil,
     Some {| Error := "failed to list files in /keybase/team/: no such directory (exit status 1)";
             IsNotExist := false |})
  /\ Contains "failed to list files in /keybase/team/: no such directory (exit status 1)"
              "/keybase/private/alice" = false.
Proof. split; reflexivity. Qed.

(** C6, as the claim has it, fails: [Delete] hands the control binary the
    arguments [fs rm P], which is none of the argument lists of the
    invocation surface. *)
Lemma Delete_passes_fs :
  let s := start [] [say ""] in
  map (fun c => tail (Args c))
      (spawned (trace (snd (Delete TrimSpace keybase config s))))
  = [["fs"; "rm"; config]]
  /\ ~ In ["fs"; "rm"; config] (invocation_surface config).
Proof.
  split; [reflexivity|].
  simpl. intros H. repeat (destruct H as [H|H]; [discriminate H|]). exact H.
Qed.

End Runs.

(** ** More on the argument scanner *)

Section ScannerMore.

Import kssh Spec Forms Scripted.

Variable descs : list CLIArgument.

Lemma first_match_None t :
  first_match descs t = None <-> (forall d, In d descs -> Name d <> t).
Proof.
  unfold first_match. induction descs as [|d l IH]; simpl.
  - split; [intros _ d []|reflexivity].
  - destruct (String.eqb (Name d) t) eqn:E.
    + apply String.eqb_eq in E. split; [discriminate|].
      intros H. now destruct (H d (or_introl eq_refl)).
    + apply String.eqb_neq in E. rewrite IH. split.
      * intros H d' [<-|Hin]; auto.
      * intros H d' Hin. apply H. now right.
Qed.

Lemma first_match_is_name t :
  is_name descs t = match first_match descs t with Some _ => true | None => false end.
Proof.
  unfold is_name, first_match. induction descs as [|d l IH]; simpl; [reflexivity|].
  destruct (String.eqb (Name d) t); [reflexivity|exact IH].
Qed.

Lemma scan_unmatched tokens :
  Forall (fun t => first_match descs t = None) tokens ->
  scan descs tokens = ScanOk tokens [].
Proof.
  induction 1 as [|t tokens Ht _ IH]; simpl; [reflexivity|].
  now rewrite Ht, IH.
Qed.

Lemma Weave_remaining remaining matches tokens :
  Weave descs remaining matches tokens ->
  Forall (fun t => first_match descs t = None) remaining.
Proof. induction 1; auto. Qed.

Lemma ParseArgs_ok_scan args remaining found :
  ParseArgs args descs = Some (Slice remaining, Slice found, None) ->
  scan descs args = ScanOk remaining found.
Proof.
  rewrite ParseArgs_scan. intros [= E].
  destruct (scan descs args); simpl in E; [|discriminate].
  now injection E as <- <-.
Qed.

(** X1. When no token is the name of a descriptor, [ParseArgs] hands the
    tokens back unchanged and finds nothing; so it does for an empty
    descriptor list. *)
Theorem ParseArgs_no_flag args :
  (forall t d, In t args -> In d descs -> Name d <> t) ->
  ParseArgs args descs = Some (Slice args, Slice [], None).
Proof.
  intros H. rewrite ParseArgs_scan, scan_unmatched; [reflexivity|].
  apply List.Forall_forall. intros t Ht. apply first_match_None.
  intros d Hd. exact (H t d Ht Hd).
Qed.

(** X2. Scanning again what a scan left over changes nothing: the remaining
    tokens stay, in their order, and nothing is found. *)
Theorem ParseArgs_remaining_fixed args remaining found :
  ParseArgs args descs = Some (Slice remaining, Slice found, None) ->
  ParseArgs remaining descs = Some (Slice remaining, Slice [], None).
Proof.
  intros H. apply ParseArgs_ok_scan, scan_Weave, Weave_remaining in H.
  now rewrite ParseArgs_scan, scan_unmatched.
Qed.

Lemma Interleave_app_right {A : Type} (k l1 l2 l : list A) :
  Interleave l1 l2 l -> Interleave l1 (k ++ l2) (k ++ l).
Proof. intros Hi. induction k as [|x k IH]; simpl; [exact Hi|now constructor]. Qed.

Lemma Interleave_Permutation {A : Type} (l1 l2 l : list A) :
  Interleave l1 l2 l -> Permutation l (l1 ++ l2).
Proof.
  induction 1 as [|x l1 l2 l _ IH|x l1 l2 l _ IH]; simpl.
  - constructor.
  - now constructor.
  - now apply Permutation_cons_app.
Qed.

(** X3. On success every token of the input goes to exactly one place:
    either it is one of the remaining tokens or it is one of the tokens of
    the matches (the name of a flag, or the value that follows it), and both
    keep the order of the input. No token is lost, none is used twice, none
    is made up; so both are subsequences of the input and their lengths add
    up to its length. *)
Theorem ParseArgs_conserves_tokens args remaining found :
  ParseArgs args descs = Some (Slice remaining, Slice found, None) ->
  Interleave remaining (flat_map tokens_of found) args
  /\ Permutation args (remaining ++ flat_map tokens_of found)
  /\ sublist remaining args
  /\ sublist (flat_map tokens_of found) args
  /\ length remaining + length (flat_map tokens_of found) = length args.
Proof.
  intros H. apply ParseArgs_ok_scan, scan_Weave in H.
  assert (Hi : Interleave remaining (flat_map tokens_of found) args).
  { induction H as [|t remaining matches tokens _ _ IH
                    |p remaining matches tokens _ _ _ IH]; simpl.
    - constructor.
    - now constructor.
    - now apply Interleave_app_right. }
  split; [exact Hi|]. split; [now apply Interleave_Permutation|].
  clear Hi.
  induction H as [|t remaining matches tokens _ _ (IH1 & IH2 & IH3)
                  |p remaining matches tokens _ _ _ (IH1 & IH2 & IH3)].
  - repeat split; constructor.
  - repeat split; simpl; [now constructor|now constructor|lia].
  - repeat split; simpl.
    + now apply sublist_inserts_l.
    + now apply sublist_app.
    + rewrite !length_app. lia.
Qed.

(** X4. A token sequence whose front part scans without error scans as the
    two parts one after the other: the results of the back part are added
    after those of the front part, and an error of the back part is the
    error of the whole. *)
Theorem ParseArgs_app front back r1 f1 :
  ParseArgs front descs = Some (Slice r1, Slice f1, None) ->
  (forall r2 f2,
      ParseArgs back descs = Some (Slice r2, Slice f2, None) ->
      ParseArgs (front ++ back) descs
      = Some (Slice (r1 ++ r2), Slice (f1 ++ f2), None))
  /\ (forall e,
        ParseArgs back descs = Some (Nil, Nil, Some e) ->
        ParseArgs (front ++ back) descs = Some (Nil, Nil, Some e)).
Proof.
  intros H. apply ParseArgs_ok_scan in H.
  rewrite !ParseArgs_scan, (scan_app _ _ _ _ _ H).
  split.
  - intros r2 f2 [= E]. destruct (scan descs back); simpl in *; [|discriminate].
    now injection E as <- <-.
  - intros e [= E]. destruct (scan descs back); simpl in *; [discriminate|].
    now injection E as <-.
Qed.

(** X5. When no descriptor takes a value, [ParseArgs] cannot fail: the
    remaining tokens are the tokens that are no name, and every other token
    gives one match, with the first descriptor of that name and an empty
    value. *)
Theorem ParseArgs_switches_only args :
  (forall d, In d descs -> HasArgument d = false) ->
  ParseArgs args descs
  = Some (Slice (List.filter (fun t => negb (is_name descs t)) args),
          Slice (flat_map (switch_of descs) args),
          None).
Proof.
  intros Hsw. rewrite ParseArgs_scan.
  assert (E : scan descs args
              = ScanOk (List.filter (fun t => negb (is_name descs t)) args)
                       (flat_map (switch_of descs) args)); [|now rewrite E].
  induction args as [|t args IH]; simpl; [reflexivity|].
  unfold switch_of at 1. rewrite first_match_is_name.
  destruct (first_match descs t) as [d|] eqn:Hf; simpl.
  - destruct (first_match_Some _ _ _ Hf) as (Hin & _).
    now rewrite (Hsw d Hin), IH.
  - now rewrite IH.
Qed.

End ScannerMore.

Section Shadowing.

Import kssh Spec.

(** The scan depends on the descriptors only through the first match of
    each token. *)
Lemma scan_ext_upto descs1 descs2 n : forall tokens,
  (forall t, first_match descs1 t = first_match descs2 t) ->
  length tokens <= n ->
  scan descs1 tokens = scan descs2 tokens.
Proof.
  induction n as [|n IH]; intros [|t rest] Hsame Hn; simpl in *;
    try reflexivity; try lia.
  rewrite Hsame. destruct (first_match descs2 t) as [d|].
  - destruct (HasArgument d).
    + destruct rest as [|v rest']; [reflexivity|].
      simpl in Hn. now rewrite (IH rest') by (auto; lia).
    + now rewrite (IH rest) by (auto; lia).
  - now rewrite (IH rest) by (auto; lia).
Qed.

Lemma first_match_app descs1 descs2 t :
  first_match (descs1 ++ descs2) t
  = match first_match descs1 t with
    | Some d => Some d
    | None => first_match descs2 t
    end.
Proof.
  unfold first_match. induction descs1 as [|d l IH]; simpl; [reflexivity|].
  destruct (String.eqb (Name d) t); [reflexivity|exact IH].
Qed.

(** X6. A descriptor listed after another one of the same name is dead:
    adding it changes no result of [ParseArgs], whether it takes a value or
    not. *)
Theorem ParseArgs_shadowed args descs d :
  (exists d0, In d0 descs /\ Name d0 = Name d) ->
  ParseArgs args (descs ++ [d]) = ParseArgs args descs.
Proof.
  intros (d0 & Hin & Hname). rewrite !ParseArgs_scan. do 2 f_equal.
  apply (scan_ext_upto _ _ (length args)); [|lia].
  intros t. rewrite first_match_app.
  destruct (first_match descs t) as [x|] eqn:Hf; [reflexivity|].
  unfold first_match. simpl.
  destruct (String.eqb (Name d) t) eqn:E; [|reflexivity].
  apply String.eqb_eq in E.
  pose proof (find_none _ _ Hf d0 Hin) as Hno. simpl in Hno.
  apply String.eqb_neq in Hno. congruence.
Qed.

Lemma ParseArgs_shadowed_witness :
  ParseArgs ["--help"; "x"]
    ([mkCLIArgument "--help" false] ++ [mkCLIArgument "--help" true])
  = ParseArgs ["--help"; "x"] [mkCLIArgument "--help" false].
Proof.
  apply (ParseArgs_shadowed ["--help"; "x"] [mkCLIArgument "--help" false]
           (mkCLIArgument "--help" true)).
  exists (mkCLIArgument "--help" false). split; [simpl; auto|reflexivity].
Defined.

End Shadowing.

Section ScannerWitnesses.

Import kssh Spec Forms Scripted.

Lemma ParseArgs_no_flag_witness :
  ParseArgs ["alice@host"; "-p"; "22"] flags
  = Some (Slice ["alice@host"; "-p"; "22"], Slice [], None).
Proof.
  apply (ParseArgs_no_flag flags ["alice@host"; "-p"; "22"]).
  intros t d Ht Hd E. subst t. simpl in Ht, Hd.
  destruct Hd as [<-|[<-|[<-|[]]]];
    repeat (destruct Ht as [Ht|Ht]; [discriminate Ht|]); exact Ht.
Defined.

Lemma ParseArgs_remaining_fixed_witness :
  ParseArgs ["alice@host"; "ls"] flags
  = Some (Slice ["alice@host"; "ls"], Slice [], None).
Proof.
  apply (ParseArgs_remaining_fixed flags
           ["--team"; "acme"; "alice@host"; "--help"; "ls"]
           ["alice@host"; "ls"]
           [mkParsed (mkCLIArgument "--team" true) "acme";
            mkParsed (mkCLIArgument "--help" false) ""]).
  vm_compute. reflexivity.
Defined.

Lemma ParseArgs_conserves_tokens_witness :
  Interleave ["alice@host"; "ls"] ["--team"; "acme"; "--help"]
             ["--team"; "acme"; "alice@host"; "--help"; "ls"]
  /\ Permutation ["--team"; "acme"; "alice@host"; "--help"; "ls"]
                 (["alice@host"; "ls"] ++ ["--team"; "acme"; "--help"])
  /\ sublist ["alice@host"; "ls"] ["--team"; "acme"; "alice@host"; "--help"; "ls"]
  /\ sublist ["--team"; "acme"; "--help"]
             ["--team"; "acme"; "alice@host"; "--help"; "ls"]
  /\ 2 + 3 = 5.
Proof.
  apply (ParseArgs_conserves_tokens flags
           ["--team"; "acme"; "alice@host"; "--help"; "ls"]
           ["alice@host"; "ls"]
           [mkParsed (mkCLIArgument "--team" true) "acme";
            mkParsed (mkCLIArgument "--help" false) ""]).
  vm_compute. reflexivity.
Defined.

Lemma ParseArgs_app_witness :
  (forall r2 f2,
      ParseArgs ["--team"] flags = Some (Slice r2, Slice f2, None) ->
      ParseArgs (["alice@host"; "--help"] ++ ["--team"]) flags
      = Some (Slice (["alice@host"] ++ r2),
              Slice ([mkParsed (mkCLIArgument "--help" false) ""] ++ f2), None))
  /\ (forall e,
        ParseArgs ["--team"] flags = Some (Nil, Nil, Some e) ->
        ParseArgs (["alice@host"; "--help"] ++ ["--team"]) flags
        = Some (Nil, Nil, Some e)).
Proof.
  apply (ParseArgs_app flags ["alice@host"; "--help"] ["--team"]).
  vm_compute. reflexivity.
Defined.

Lemma ParseArgs_switches_only_witness :
  ParseArgs ["-v"; "alice@host"; "-v"; "--help"]
    [mkCLIArgument "--help" false; mkCLIArgument "-v" false]
  = Some (Slice ["alice@host"],
          Slice [mkParsed (mkCLIArgument "-v" false) "";
                 mkParsed (mkCLIArgument "-v" false) "";
                 mkParsed (mkCLIArgument "--help" false) ""],
          None).
Proof.
  apply (ParseArgs_switches_only
           [mkCLIArgument "--help" false; mkCLIArgument "-v" false]
           ["-v"; "alice@host"; "-v"; "--help"]).
  intros d [<-|[<-|[]]]; reflexivity.
Defined.

End ScannerWitnesses.

(** ** More on the listing *)

Section ListingMore.

Import kbfs Spec Forms.

Lemma Split_app (a b : string) (sep : ascii) :
  Split (a ++ String sep b) sep = Split a sep ++ Split b sep.
Proof.
  induction a as [|c a IH]; simpl.
  - now rewrite Ascii.eqb_refl.
  - rewrite IH. destruct (Ascii.eqb c sep); [reflexivity|].
    pose proof (Split_nonempty a sep) as Hne.
    destruct (Split a sep); [congruence|reflexivity].
Qed.

Lemma Split_whole (n : string) (sep : ascii) :
  has_byte sep n = false -> Split n sep = [n].
Proof.
  induction n as [|c n IH]; simpl; [reflexivity|].
  destruct (Ascii.eqb c sep); simpl; [discriminate|].
  intros H. now rewrite (IH H).
Qed.

Lemma List_loop_elems pieces :
  elems (List_loop pieces) = List.filter nonempty pieces.
Proof. apply List_loop_filter. Qed.

(** X7. The lines [List] keeps of an output cut in two at a newline are the
    lines of the first part followed by the lines of the second part; in
    particular newlines at the end of the output, and blank lines anywhere,
    do not show in the result. *)
Theorem List_loop_app (a b : string) :
  elems (List_loop (Split (a ++ String newline b) newline))
  = elems (List_loop (Split a newline)) ++ elems (List_loop (Split b newline))
  /\ elems (List_loop (Split (a ++ String newline EmptyString) newline))
     = elems (List_loop (Split a newline)).
Proof.
  rewrite !List_loop_elems, !Split_app, !List.filter_app. simpl.
  split; [reflexivity|apply app_nil_r].
Qed.

Lemma List_loop_listing names :
  Forall (fun n => nonempty n = true /\ has_byte newline n = false) names ->
  List.filter nonempty (Split (listing names) newline) = names.
Proof.
  induction 1 as [|n names [Hn Hb] _ IH]; simpl; [reflexivity|].
  rewrite Split_app, List.filter_app, IH, (Split_whole _ _ Hb). simpl.
  now rewrite Hn.
Qed.

End ListingMore.

Section FacadeMore.

Import kbfs Spec Forms.

Context {W : Type} `{Host W}.
Variable TrimSpace : string -> string.
Variable ko : Operation.

(** X8. When [ls -1] succeeds and prints names that are not empty and hold
    no newline, each followed by a newline, [List] returns exactly these
    names, in this order, and a nil error. *)
Theorem List_returns_names (path : string) (s : State W) (names : list string)
  (output : bytes) (w' : W) :
  Cmd_CombinedOutput (ls_cmd ko path) (world s) = ((output, None), w') ->
  string_of_bytes output = listing names ->
  Forall (fun n => nonempty n = true /\ has_byte newline n = false) names ->
  exists ret,
    fst (List TrimSpace ko path s) = (ret, None) /\ elems ret = names.
Proof.
  intros Hls Hout Hnames. unfold List, Go.bind, Go.ret, CombinedOutput.
  change (Command (KeybaseBinaryPath ko) ["fs"; "ls"; "-1"; "--nocolor"; path])
    with (ls_cmd ko path).
  rewrite Hls. cbn [fst]. eexists. split; [reflexivity|].
  rewrite List_loop_elems, Hout. now apply List_loop_listing.
Qed.

(** X9. No entry of a successful listing is empty, and none holds a
    newline. *)
Theorem List_entries_clean (path : string) (s : State W)
  (output : bytes) (w' : W) :
  Cmd_CombinedOutput (ls_cmd ko path) (world s) = ((output, None), w') ->
  Forall (fun n => n <> EmptyString /\ has_byte newline n = false)
         (elems (fst (fst (List TrimSpace ko path s)))).
Proof.
  intros Hls. unfold List, Go.bind, Go.ret, CombinedOutput.
  change (Command (KeybaseBinaryPath ko) ["fs"; "ls"; "-1"; "--nocolor"; path])
    with (ls_cmd ko path).
  rewrite Hls. cbn [fst]. rewrite List_loop_elems.
  pose proof (Split_pieces (string_of_bytes output) newline) as Hp.
  induction Hp as [|p pieces Hb _ IH]; simpl; [constructor|].
  destruct (nonempty p) eqn:Hn; [|exact IH].
  constructor; [|exact IH]. split; [|exact Hb].
  intros ->. discriminate Hn.
Qed.

End FacadeMore.

(** ** More on the file operations *)

Section Dispatch.

Import kbfs Spec.

Context {W : Type} `{Host W}.
Variable TrimSpace : string -> string.
Variable ko : Operation.

(** X12. [Write] returns a nil error exactly when the last thing it did was
    to spawn the subprocess that carries the caller's contents on its
    standard input ([fs write P], or [fs write --append P] when appending),
    and that subprocess succeeded. *)
Theorem Write_nil_iff_delivered (filename contents : string)
  (appendToFile : bool) (s : State W) :
  let cmd := if appendToFile then append_cmd ko filename contents
             else write_cmd ko filename contents in
  fst (Write TrimSpace ko filename contents appendToFile s) = None
  <-> exists before out,
        trace (snd (Write TrimSpace ko filename contents appendToFile s))
        = before ++ [EvSpawn cmd (out, None)].
Proof.
  destruct appendToFile; cbv zeta.
  - pose proof (Write_append_cases TrimSpace ko filename contents s) as Hw.
    destruct (FileExists TrimSpace ko filename s) as [ex s1].
    destruct (Write TrimSpace ko filename contents true s) as [res s'].
    cbn [fst snd].
    destruct Hw as [(_ & [outa ea] & _ & -> & ->)
                   |[(_ & [outc ec] & e & _ & Hrc & -> & ->)
                    |(_ & rc & w2 & [outa ea] & _ & _ & _ & -> & ->)]];
      unfold write_report; cbn [fst snd] in *.
    + split.
      * destruct ea; [discriminate|]. intros _. eauto.
      * intros (before & out & Ht). apply last_event in Ht.
        now injection Ht as _ ->.
    + split; [discriminate|].
      intros (before & out & Ht). apply last_event in Ht. discriminate Ht.
    + split.
      * destruct ea; [discriminate|]. intros _.
        exists (trace s1 ++ [EvSpawn (write_cmd ko filename "") rc]), outa.
        now rewrite <- app_assoc.
      * intros (before & out & Ht).
        change [EvSpawn (write_cmd ko filename "") rc;
                EvSpawn (append_cmd ko filename contents) (outa, ea)]
          with ([EvSpawn (write_cmd ko filename "") rc]
                ++ [EvSpawn (append_cmd ko filename contents) (outa, ea)]) in Ht.
        rewrite app_assoc in Ht. apply last_event in Ht.
        now injection Ht as _ ->.
  - rewrite Write_overwrite.
    destruct (Cmd_CombinedOutput _ _) as [[out e] w].
    unfold write_report. cbn [fst snd trace]. split.
    + destruct e; [discriminate|]. intros _. eauto.
    + intros (before & out' & Ht). apply last_event in Ht.
      now injection Ht as _ ->.
Qed.

End Dispatch.

(** ** The operations on a host that keeps files

    What follows holds on every host whose answers agree with a file store
    [content]: probes change no file and succeed only on files that are
    there, and a subprocess that succeeds has done what it was asked. Each
    theorem assumes only the laws it names. *)

Section Semantics.

Import kbfs Spec Laws.

Context {W : Type} `{Host W}.
Variable TrimSpace : string -> string.
Variable ko : Operation.
Variable content : W -> string -> option string.


(** [FileExists], step by step. *)
Lemma FileExists_run (filename : string) (s : State W) :
  FileExists TrimSpace ko filename s
  = let (fuse, s1) := supportsFuse s in
    if fuse then
      let (err, w2) := os_Stat filename (world s1) in
      (match err with
       | None => (true, None)
       | Some e => if IsNotExist e then (false, None) else (false, Some e)
       end,
       mkState w2 (trace s1 ++ [EvStat filename err]))
    else
      let (r, w2) := Cmd_CombinedOutput (stat_cmd ko filename) (world s1) in
      (match snd r with
       | None => (true, None)
       | Some e =>
           if Contains (string_of_bytes (fst r)) "ERROR file does not exist"
           then (false, None)
           else (false, Some (report "failed to stat " TrimSpace filename (fst r) e))
       end,
       mkState w2 (trace s1 ++ [EvSpawn (stat_cmd ko filename) r])).
Proof.
  unfold FileExists. unfold Go.bind at 1.
  destruct (supportsFuse s) as [[|] s1]; unfold Go.bind, Go.ret, Stat, CombinedOutput.
  - destruct (os_Stat filename (world s1)) as [[e|] w2];
      [destruct (IsNotExist e)|]; reflexivity.
  - change (Command (KeybaseBinaryPath ko) ["fs"; "stat"; filename])
      with (stat_cmd ko filename).
    destruct (Cmd_CombinedOutput _ _) as [[out [e|]] w2];
      [cbn [fst snd]; destruct (Contains _ _)|]; reflexivity.
Qed.

Lemma supportsFuse_keeps (s : State W) (p : string) :
  stat_keeps content ->
  content (world (snd (supportsFuse s))) p = content (world s) p.
Proof.
  intros Hk. unfold supportsFuse, Go.bind, Go.ret, Stat.
  pose proof (Hk "/keybase" (world s) p) as H1.
  destruct (os_Stat "/keybase" (world s)) as [e1 w1]. cbn [world snd] in *.
  pose proof (Hk "/keybase/team" w1 p) as H2.
  destruct (os_Stat "/keybase/team" w1) as [e2 w2]. cbn [world snd] in *.
  pose proof (Hk "/keybase/private" w2 p) as H3.
  destruct (os_Stat "/keybase/private" w2) as [e3 w3]. cbn [world snd] in *.
  pose proof (Hk "/keybase/public" w3 p) as H4.
  destruct (os_Stat "/keybase/public" w3) as [e4 w4]. cbn [world snd] in *.
  congruence.
Qed.

Lemma FileExists_keeps (filename : string) (s : State W) (p : string) :
  stat_keeps content -> fs_stat_keeps ko content ->
  content (world (snd (FileExists TrimSpace ko filename s))) p
  = content (world s) p.
Proof.
  intros Hk Hfk. rewrite FileExists_run.
  pose proof (supportsFuse_keeps s p Hk) as Hs.
  destruct (supportsFuse s) as [[|] s1]; cbn [snd] in Hs.
  - pose proof (Hk filename (world s1) p) as H1.
    destruct (os_Stat filename (world s1)) as [e w2]. cbn [world snd] in *.
    congruence.
  - pose proof (Hfk filename (world s1) p) as H1.
    destruct (Cmd_CombinedOutput _ _) as [r w2]. cbn [world snd] in *.
    congruence.
Qed.

(** [FileExists] answers true only for a file that is there. *)
Lemma FileExists_true_there (filename : string) (s : State W) :
  stat_keeps content -> stat_truthful content -> fs_stat_truthful ko content ->
  fst (FileExists TrimSpace ko filename s) = (true, None) ->
  content (world s) filename <> None.
Proof.
  intros Hk Ht Hft. rewrite FileExists_run.
  pose proof (supportsFuse_keeps s filename Hk) as Hs.
  destruct (supportsFuse s) as [[|] s1]; cbn [snd] in Hs; rewrite <- Hs.
  - pose proof (Ht filename (world s1)) as H1.
    destruct (os_Stat filename (world s1)) as [[e|] w2]; cbn [fst snd] in *.
    + destruct (IsNotExist e); discriminate.
    + auto.
  - pose proof (Hft filename (world s1)) as H1.
    destruct (Cmd_CombinedOutput _ _) as [[out [e|]] w2]; cbn [fst snd] in *.
    + destruct (Contains _ _); discriminate.
    + auto.
Qed.

(** [Read], step by step. *)
Lemma Read_run (filename : string) (s : State W) :
  Read TrimSpace ko filename s
  = let (fuse, s1) := supportsFuse s in
    if fuse then
      let (r, w2) := ioutil_ReadFile filename (world s1) in
      (r, mkState w2 (trace s1 ++ [EvReadFile filename r]))
    else
      let (r, w2) := Cmd_CombinedOutput (read_cmd ko filename) (world s1) in
      (match snd r with
       | None => (fst r, None)
       | Some e => (Nil, Some (report "failed to read " TrimSpace filename (fst r) e))
       end,
       mkState w2 (trace s1 ++ [EvSpawn (read_cmd ko filename) r])).
Proof.
  unfold Read. unfold Go.bind at 1.
  destruct (supportsFuse s) as [[|] s1]; [reflexivity|].
  unfold Go.bind, Go.ret, CombinedOutput.
  change (Command (KeybaseBinaryPath ko) ["fs"; "read"; filename])
    with (read_cmd ko filename).
  destruct (Cmd_CombinedOutput _ _) as [[out [e|]] w2]; reflexivity.
Qed.

Lemma FileExists_shape (filename : string) (s : State W) :
  fst (FileExists TrimSpace ko filename s) = (true, None)
  \/ fst (fst (FileExists TrimSpace ko filename s)) = false.
Proof.
  rewrite FileExists_run. destruct (supportsFuse s) as [[|] s1].
  - destruct (os_Stat _ _) as [[e|] w2]; [destruct (IsNotExist e)|]; auto.
  - destruct (Cmd_CombinedOutput _ _) as [[out [e|]] w2]; cbn [fst snd];
      [destruct (Contains _ _)|]; auto.
Qed.

(** X13. When the existence check does not answer [(true, nil)], because
    the file is missing or because the check itself failed, an appending
    [Write] that returns nil leaves the file with exactly the contents
    written: whatever the file held before is gone. *)
Theorem Write_append_unseen_file (filename contents : string) (s : State W) :
  fs_write_writes ko content -> fs_append_appends ko content ->
  fst (FileExists TrimSpace ko filename s) <> (true, None) ->
  fst (Write TrimSpace ko filename contents true s) = None ->
  content (world (snd (Write TrimSpace ko filename contents true s))) filename
  = Some contents.
Proof.
  intros Hw Ha.
  pose proof (Write_append_cases TrimSpace ko filename contents s) as Hc.
  destruct (FileExists TrimSpace ko filename s) as [ex s1].
  destruct (Write TrimSpace ko filename contents true s) as [res s'].
  cbn [fst snd]. intros Hex Hres.
  destruct Hc as [(-> & _)
                 |[(_ & rc & e & _ & _ & _ & ->)
                  |(_ & rc & w2 & ra & Hcreate & Hrc & Happend & _ & ->)]];
    [congruence|discriminate|].
  pose proof (Hw filename "" (world s1)) as H1.
  rewrite Hcreate in H1. cbn [fst snd] in H1. specialize (H1 Hrc).
  pose proof (Ha filename contents w2 "" H1) as H2.
  rewrite Happend in H2. cbn [fst snd] in H2. apply H2.
  unfold write_report in Hres. destruct (snd ra); [discriminate|reflexivity].
Qed.





(** X10. On a host whose probes are truthful and change no file,
    [FileExists] changes no file, and whenever its boolean is true the file
    is there, on either backend. *)
Theorem FileExists_sound (filename : string) (s : State W) :
  stat_keeps content -> stat_truthful content ->
  fs_stat_keeps ko content -> fs_stat_truthful ko content ->
  (forall p,
      content (world (snd (FileExists TrimSpace ko filename s))) p
      = content (world s) p)
  /\ (fst (fst (FileExists TrimSpace ko filename s)) = true ->
      exists c, content (world s) filename = Some c).
Proof.
  intros Hk Ht Hfk Hft. split.
  - intros p. now apply FileExists_keeps.
  - intros Htrue.
    destruct (FileExists_shape filename s) as [Hex|Hfalse]; [|congruence].
    pose proof (FileExists_true_there filename s Hk Ht Hft Hex) as Hthere.
    destruct (content (world s) filename) as [c|]; [eauto|congruence].
Qed.

(** X11. On a host whose reads are truthful and whose probes change no
    file, a [Read] that returns a nil error returns exactly what the file
    holds, untrimmed, on either backend. *)
Theorem Read_truthful (filename : string) (s : State W) :
  stat_keeps content -> readfile_truthful content ->
  fs_read_truthful ko content ->
  snd (fst (Read TrimSpace ko filename s)) = None ->
  content (world s) filename
  = Some (string_of_bytes (fst (fst (Read TrimSpace ko filename s)))).
Proof.
  intros Hk Hrf Hfr. rewrite Read_run.
  pose proof (supportsFuse_keeps s filename Hk) as Hs.
  destruct (supportsFuse s) as [[|] s1]; cbn [snd world] in Hs; rewrite <- Hs.
  - pose proof (Hrf filename (world s1)) as H2.
    destruct (ioutil_ReadFile filename (world s1)) as [[b e] w2].
    cbn [fst snd] in *. exact H2.
  - pose proof (Hfr filename (world s1)) as H2.
    destruct (Cmd_CombinedOutput (read_cmd ko filename) (world s1))
      as [[b [e|]] w2]; cbn [fst snd] in *; [discriminate|].
    exact H2.
Qed.

End Semantics.

(** ** The operations on the host that keeps files *)

Section MemFSRuns.

Import kbfs Spec Laws MemFS.

Variable ko : Operation.

Ltac run_exec := simpl; unfold exec; simpl.

Lemma MemFS_stat_keeps : stat_keeps contents_of.
Proof. intros n w p. reflexivity. Qed.

Lemma MemFS_stat_truthful : stat_truthful contents_of.
Proof. intros p w. discriminate. Qed.

Lemma MemFS_readfile_truthful : readfile_truthful contents_of.
Proof. intros p w. discriminate. Qed.

Lemma MemFS_fs_stat_keeps : fs_stat_keeps ko contents_of.
Proof.
  intros p w q. unfold contents_of. run_exec. destruct (w p); reflexivity.
Qed.

Lemma MemFS_fs_stat_truthful : fs_stat_truthful ko contents_of.
Proof.
  intros p w. unfold contents_of. run_exec.
  destruct (w p); [discriminate|discriminate].
Qed.

Lemma MemFS_fs_read_truthful : fs_read_truthful ko contents_of.
Proof.
  intros p w. unfold contents_of. run_exec.
  destruct (w p) as [c|]; simpl; [|discriminate].
  intros _. unfold string_of_bytes. simpl.
  now rewrite string_of_list_ascii_of_string.
Qed.

Lemma MemFS_fs_write_writes : fs_write_writes ko contents_of.
Proof.
  intros p c w _. unfold contents_of. run_exec. unfold put.
  now rewrite String.eqb_refl.
Qed.

Lemma MemFS_fs_append_appends : fs_append_appends ko contents_of.
Proof.
  intros p c w old Hold _. unfold contents_of in *. run_exec. rewrite Hold.
  simpl. unfold put. now rewrite String.eqb_refl.
Qed.


End MemFSRuns.

Section MemFSWitnesses.

Import kbfs Spec Laws MemFS.
Import Scripted (keybase, config, TrimSpace).

Lemma Write_append_unseen_file_witness :
  contents_of
    (world (snd (Write TrimSpace keybase config "hello" true (start empty))))
    config
  = Some "hello".
Proof.
  apply (Write_append_unseen_file TrimSpace keybase contents_of config "hello"
           (start empty)
           (MemFS_fs_write_writes keybase) (MemFS_fs_append_appends keybase)).
  - vm_compute. discriminate.
  - vm_compute. reflexivity.
Defined.





Lemma FileExists_sound_witness :
  (forall p,
      contents_of
        (world (snd (FileExists TrimSpace keybase config
                       (start (put config "hello" empty))))) p
      = contents_of (world (start (put config "hello" empty))) p)
  /\ (fst (fst (FileExists TrimSpace keybase config
                  (start (put config "hello" empty)))) = true ->
      exists c,
        contents_of (world (start (put config "hello" empty))) config = Some c).
Proof.
  apply (FileExists_sound TrimSpace keybase contents_of config
           (start (put config "hello" empty))
           MemFS_stat_keeps MemFS_stat_truthful
           (MemFS_fs_stat_keeps keybase) (MemFS_fs_stat_truthful keybase)).
Defined.

Lemma Read_truthful_witness :
  contents_of (world (start (put config "  team = acme " empty))) config
  = Some (string_of_bytes
            (fst (fst (Read TrimSpace keybase config
                         (start (put config "  team = acme " empty)))))).
Proof.
  apply (Read_truthful TrimSpace keybase contents_of config
           (start (put config "  team = acme " empty))
           MemFS_stat_keeps MemFS_readfile_truthful
           (MemFS_fs_read_truthful keybase)).
  vm_compute. reflexivity.
Defined.

End MemFSWitnesses.

Section DispatchWitnesses.

Import kbfs Spec Forms Scripted.

Lemma List_returns_names_witness :
  exists ret,
    fst (List TrimSpace keybase "/keybase/team/acme"
           (start [] [say (listing ["kssh-client.config"; "ca.pub"])]))
    = (ret, None)
    /\ elems ret = ["kssh-client.config"; "ca.pub"].
Proof.
  apply (List_returns_names TrimSpace keybase "/keybase/team/acme"
           (start [] [say (listing ["kssh-client.config"; "ca.pub"])])
           ["kssh-client.config"; "ca.pub"]
           (bytes_of_string (listing ["kssh-client.config"; "ca.pub"]))
           (mkHost [] [])).
  - reflexivity.
  - reflexivity.
  - repeat constructor.
Defined.

Lemma List_entries_clean_witness :
  Forall (fun n => n <> EmptyString /\ has_byte newline n = false)
    (elems (fst (fst (List TrimSpace keybase "/keybase/team/acme"
                        (start [] [say "

ca.pub

"]))))).
Proof.
  apply (List_entries_clean TrimSpace keybase "/keybase/team/acme"
           (start [] [say "

ca.pub

"])
           (bytes_of_string "

ca.pub

")
           (mkHost [] [])).
  reflexivity.
Defined.

End DispatchWitnesses.
